(** * CollectMacrosPreprocessorCallbacks: macro usage and symbol collection

    A shallow embedding of
    [src/tools/clangrefactoringbackend/source/collectmacrospreprocessorcallbacks.h]
    (namespace ClangBackEnd).  The class is a set of preprocessor callbacks
    that mutate five containers and one flag; here every callback is a
    function from collector state to collector state, and the services the
    class consumes (source manager, file path cache, USR generator, the
    preprocessor's macro table) form the interface [FrontEnd]. *)

From Stdlib Require Import ZArith String Ascii List Bool Sorted OrdersEx Lia.
From stdpp Require Import gmap strings list sorting.

Local Open Scope Z_scope.

(** ** Data of the front end *)

(** [clang::SourceLocation]: a 32-bit id whose top bit tells a macro
    expansion location from a file location. *)
Definition SourceLocation := Z.

Definition MacroIDBit : Z := Z.shiftl 1 31.

Definition isFileID (sourceLocation : SourceLocation) : bool :=
  Z.land sourceLocation MacroIDBit =? 0.

(** [FilePathId]: an integer id.  Which ids are valid is decided by
    [filepathid.h], which is not among the sources: [isValid] is a service
    of the front end below. *)
Definition FilePathId := Z.

(** [clang::FileEntry], reduced to the name the code reads from it. *)
Definition FileEntry := string.

(** [clang::Token]: the two accessors the callbacks use. *)
Record Token := mkToken {
  getLocation : SourceLocation;
  getName : string
}.

(** [clang::MacroInfo]: the object's address (its identity) and the one
    flag the collector reads. *)
Record MacroInfo := mkMacroInfo {
  address : Z;
  isUsedForHeaderGuard : bool
}.

(** [clang::MacroDirective]: a record of one (re)definition, linked to the
    directive before it; [None] is the null pointer. *)
#[local] Unset Elimination Schemes.
Inductive MacroDirective :=
  Directive (info : option MacroInfo) (previous : option MacroDirective).
#[local] Set Elimination Schemes.

Definition directiveMacroInfo (d : MacroDirective) : option MacroInfo :=
  match d with Directive info _ => info end.

Definition getPrevious (d : MacroDirective) : option MacroDirective :=
  match d with Directive _ previous => previous end.

(** [clang::MacroDefinition] as the callbacks see it. *)
Record MacroDefinition := mkMacroDefinition {
  getMacroInfo : option MacroInfo;
  getLocalDirective : option MacroDirective
}.

(** ** Data of the collector *)

(** [SymbolIndex] is [long long]. *)
Abbreviation SymbolIndex := Z (only parsing).

(** The identity of a macro is the address of its first macro info. *)
Definition toSymbolIndex (macroInfo : MacroInfo) : SymbolIndex :=
  address macroInfo.

Module SymbolType.
Inductive t := MacroDefinition | MacroUsage | MacroUndefinition.
End SymbolType.

Record SymbolEntry := mkSymbolEntry {
  usr : string;
  symbolName : string
}.

Record LineColumn := mkLineColumn {
  line : Z;
  column : Z
}.

Record SourceLocationEntry := mkSourceLocationEntry {
  symbolId : SymbolIndex;
  entryFilePathId : FilePathId;
  lineColumn : LineColumn;
  symbolType : SymbolType.t
}.

Record UsedDefine := mkUsedDefine {
  defineName : string;
  filePathId : FilePathId
}.

(** Modelled from the spec: [useddefines.h] is not among the sources, so the
    comparison operators of [UsedDefine] follow the data model: entries are
    ordered by [name] in lexicographic order, and entries with equal name
    are duplicates whatever their location. *)
Definition UsedDefine_lt (first second : UsedDefine) : bool :=
  (defineName first <? defineName second)%string.

Definition UsedDefine_neq (first second : UsedDefine) : bool :=
  negb (defineName first =? defineName second)%string.

(** ** Standard algorithms, by their contract in the C++ standard *)

Section Algorithms.
Context {A : Type}.

(** [std::lower_bound]: the furthermost position [i] such that every
    element before [i] is less than [value]. *)
Fixpoint lower_bound (less : A -> A -> bool) (l : list A) (value : A) : nat :=
  match l with
  | [] => 0%nat
  | x :: l' => if less x value then S (lower_bound less l' value) else 0%nat
  end.

(** [std::find]: the position of the first element equal to [value], the
    end position when there is none. *)
Fixpoint find (eqb : A -> A -> bool) (l : list A) (value : A) : nat :=
  match l with
  | [] => 0%nat
  | x :: l' => if eqb x value then 0%nat else S (find eqb l' value)
  end.

(** [std::vector::insert(position, value)]. *)
Definition vector_insert (position : nat) (value : A) (l : list A) : list A :=
  take position l ++ value :: drop position l.

(** [std::vector::erase(first, end())]. *)
Definition erase_to_end (first : nat) (l : list A) : list A := take first l.

(** [std::stable_partition]: the elements satisfying the predicate come
    first, both groups in their former order; the result is the
    rearranged range with the position of the second group. *)
Definition stable_partition (p : A -> bool) (l : list A) : list A * nat :=
  (List.filter p l ++ List.filter (fun x => negb (p x)) l,
   length (List.filter p l)).

(** Merge of two sorted sequences; of two equivalent elements the one
    from the first sequence comes first. *)
Fixpoint sorted_merge (less : A -> A -> bool) (l1 : list A) : list A -> list A :=
  fix merge_l1 (l2 : list A) : list A :=
    match l1, l2 with
    | [], _ => l2
    | _, [] => l1
    | x1 :: l1', x2 :: l2' =>
        if less x2 x1 then x2 :: merge_l1 l2'
        else x1 :: sorted_merge less l1' l2
    end.

(** [std::inplace_merge(begin, middle, end)]. *)
Definition inplace_merge (less : A -> A -> bool) (middle : nat) (l : list A)
  : list A :=
  sorted_merge less (take middle l) (drop middle l).
End Algorithms.

(** [Utils::SmallString::contains]: a search for the substring. *)
Fixpoint contains (s subString : string) : bool :=
  String.prefix subString s ||
  match s with
  | EmptyString => false
  | String _ s' => contains s' subString
  end.

(** ** The services the collector consumes *)

Class FrontEnd := {
  (** [SymbolsVisitorBase::filePathId(SourceLocation)] *)
  locationFilePathId : SourceLocation -> FilePathId;
  (** [FilePathId::isValid] *)
  isValid : FilePathId -> bool;
  (** [SymbolsVisitorBase::lineColum] *)
  lineColum : SourceLocation -> LineColumn;
  (** [SymbolsVisitorBase::generateUSR] *)
  generateUSR : string -> SourceLocation -> option string;
  (** [m_filePathCache.filePathId] of the absolute path of a file entry *)
  cacheFilePathId : FileEntry -> FilePathId;
  (** [m_preprocessor->getMacroInfo] of the identifier with that name *)
  preprocessorMacroInfo : string -> option MacroInfo
}.

(** ** The collector state: the members of the class *)

Record Collector := mkCollector {
  m_maybeUsedDefines : list UsedDefine;
  m_symbolEntries : gmap Z SymbolEntry;
  m_sourceLocationEntries : list SourceLocationEntry;
  m_sourceFiles : list FilePathId;
  m_usedDefines : list UsedDefine;
  m_skipInclude : bool
}.

(** The containers handed to the constructor are empty at the start of a
    pass, and [m_skipInclude] is initialised to [false]. *)
Definition initial : Collector :=
  {| m_maybeUsedDefines := [];
     m_symbolEntries := ∅;
     m_sourceLocationEntries := [];
     m_sourceFiles := [];
     m_usedDefines := [];
     m_skipInclude := false |}.

Definition set_maybeUsedDefines (v : list UsedDefine) (c : Collector) :=
  {| m_maybeUsedDefines := v;
     m_symbolEntries := m_symbolEntries c;
     m_sourceLocationEntries := m_sourceLocationEntries c;
     m_sourceFiles := m_sourceFiles c;
     m_usedDefines := m_usedDefines c;
     m_skipInclude := m_skipInclude c |}.

Definition set_symbolEntries (v : gmap Z SymbolEntry) (c : Collector) :=
  {| m_maybeUsedDefines := m_maybeUsedDefines c;
     m_symbolEntries := v;
     m_sourceLocationEntries := m_sourceLocationEntries c;
     m_sourceFiles := m_sourceFiles c;
     m_usedDefines := m_usedDefines c;
     m_skipInclude := m_skipInclude c |}.

Definition set_sourceLocationEntries (v : list SourceLocationEntry)
    (c : Collector) :=
  {| m_maybeUsedDefines := m_maybeUsedDefines c;
     m_symbolEntries := m_symbolEntries c;
     m_sourceLocationEntries := v;
     m_sourceFiles := m_sourceFiles c;
     m_usedDefines := m_usedDefines c;
     m_skipInclude := m_skipInclude c |}.

Definition set_sourceFiles (v : list FilePathId) (c : Collector) :=
  {| m_maybeUsedDefines := m_maybeUsedDefines c;
     m_symbolEntries := m_symbolEntries c;
     m_sourceLocationEntries := m_sourceLocationEntries c;
     m_sourceFiles := v;
     m_usedDefines := m_usedDefines c;
     m_skipInclude := m_skipInclude c |}.

Definition set_usedDefines (v : list UsedDefine) (c : Collector) :=
  {| m_maybeUsedDefines := m_maybeUsedDefines c;
     m_symbolEntries := m_symbolEntries c;
     m_sourceLocationEntries := m_sourceLocationEntries c;
     m_sourceFiles := m_sourceFiles c;
     m_usedDefines := v;
     m_skipInclude := m_skipInclude c |}.

Definition set_skipInclude (v : bool) (c : Collector) :=
  {| m_maybeUsedDefines := m_maybeUsedDefines c;
     m_symbolEntries := m_symbolEntries c;
     m_sourceLocationEntries := m_sourceLocationEntries c;
     m_sourceFiles := m_sourceFiles c;
     m_usedDefines := m_usedDefines c;
     m_skipInclude := v |}.

(** ** The callbacks *)

(** The static [addUsedDefine(UsedDefine &&, UsedDefines &)]. *)
Definition addUsedDefineTo (usedDefine : UsedDefine)
    (usedDefines : list UsedDefine) : list UsedDefine :=
  let found := lower_bound UsedDefine_lt usedDefines usedDefine in
  match usedDefines !! found with
  | None => vector_insert found usedDefine usedDefines
  | Some atFound =>
      if UsedDefine_neq atFound usedDefine
      then vector_insert found usedDefine usedDefines
      else usedDefines
  end.

(** The do-while loop of [firstMacroInfo]: one turn moves to the previous
    directive, and the loop ends at the directive that has none. *)
Fixpoint firstDirective (previousDirective : MacroDirective) : MacroDirective :=
  match previousDirective with
  | Directive _ None => previousDirective
  | Directive _ (Some previous) => firstDirective previous
  end.

Definition firstMacroInfo (macroDirective : option MacroDirective)
  : option MacroInfo :=
  match macroDirective with
  | Some directive => directiveMacroInfo (firstDirective directive)
  | None => None
  end.

Section Callbacks.
Context `{FE : FrontEnd}.

Definition addSourceFile (file : FileEntry) (c : Collector) : Collector :=
  let filePathId := cacheFilePathId file in
  let found := find Z.eqb (m_sourceFiles c) filePathId in
  match m_sourceFiles c !! found with
  | None => set_sourceFiles (vector_insert found filePathId (m_sourceFiles c)) c
  | Some atFound =>
      if negb (atFound =? filePathId)
      then set_sourceFiles (vector_insert found filePathId (m_sourceFiles c)) c
      else c
  end.

Definition InclusionDirective (file : option FileEntry) (c : Collector)
  : Collector :=
  let c' :=
    match file with
    | Some f => if negb (m_skipInclude c) then addSourceFile f c else c
    | None => c
    end in
  set_skipInclude false c'.

(** The callback also returns [true] to the preprocessor. *)
Definition FileNotFound (c : Collector) : Collector * bool :=
  (set_skipInclude true c, true).

(** The member [addUsedDefine(const Token &, const MacroDefinition &)]. *)
Definition addUsedDefine (macroNameToken : Token)
    (macroDefinition : MacroDefinition) (c : Collector) : Collector :=
  let usedDefine :=
    {| defineName := getName macroNameToken;
       filePathId := locationFilePathId (getLocation macroNameToken) |} in
  match getMacroInfo macroDefinition with
  | Some _ => set_usedDefines (addUsedDefineTo usedDefine (m_usedDefines c)) c
  | None =>
      set_maybeUsedDefines
        (addUsedDefineTo usedDefine (m_maybeUsedDefines c)) c
  end.

Definition addMacroAsSymbol (macroNameToken : Token)
    (macroInfo : option MacroInfo) (symbolType : SymbolType.t)
    (c : Collector) : Collector :=
  let sourceLocation := getLocation macroNameToken in
  match macroInfo with
  | Some info =>
      if isFileID sourceLocation then
        let fileId := locationFilePathId sourceLocation in
        if isValid fileId then
          let macroName := getName macroNameToken in
          let globalId := toSymbolIndex info in
          let c1 :=
            match m_symbolEntries c !! globalId with
            | None =>
                match generateUSR macroName sourceLocation with
                | Some usr =>
                    set_symbolEntries
                      (<[globalId := mkSymbolEntry usr macroName]>
                         (m_symbolEntries c)) c
                | None => c
                end
            | Some _ => c
            end in
          set_sourceLocationEntries
            (m_sourceLocationEntries c1 ++
             [mkSourceLocationEntry globalId fileId
                (lineColum sourceLocation) symbolType]) c1
        else c
      else c
  | None => c
  end.

Definition Ifndef (macroNameToken : Token)
    (macroDefinition : MacroDefinition) (c : Collector) : Collector :=
  addMacroAsSymbol macroNameToken
    (firstMacroInfo (getLocalDirective macroDefinition))
    SymbolType.MacroUsage
    (addUsedDefine macroNameToken macroDefinition c).

Definition Ifdef (macroNameToken : Token)
    (macroDefinition : MacroDefinition) (c : Collector) : Collector :=
  addMacroAsSymbol macroNameToken
    (firstMacroInfo (getLocalDirective macroDefinition))
    SymbolType.MacroUsage
    (addUsedDefine macroNameToken macroDefinition c).

Definition Defined (macroNameToken : Token)
    (macroDefinition : MacroDefinition) (c : Collector) : Collector :=
  addMacroAsSymbol macroNameToken
    (firstMacroInfo (getLocalDirective macroDefinition))
    SymbolType.MacroUsage
    (addUsedDefine macroNameToken macroDefinition c).

Definition MacroDefined (macroNameToken : Token)
    (macroDirective : option MacroDirective) (c : Collector) : Collector :=
  addMacroAsSymbol macroNameToken (firstMacroInfo macroDirective)
    SymbolType.MacroDefinition c.

Definition MacroUndefined (macroNameToken : Token)
    (macroDefinition : MacroDefinition) (c : Collector) : Collector :=
  addMacroAsSymbol macroNameToken
    (firstMacroInfo (getLocalDirective macroDefinition))
    SymbolType.MacroUndefinition c.

Definition MacroExpands (macroNameToken : Token)
    (macroDefinition : MacroDefinition) (c : Collector) : Collector :=
  addMacroAsSymbol macroNameToken
    (firstMacroInfo (getLocalDirective macroDefinition))
    SymbolType.MacroUsage
    (addUsedDefine macroNameToken macroDefinition c).

(** The predicate of [filterOutHeaderGuards]. *)
Definition notHeaderGuard (usedDefine : UsedDefine) : bool :=
  match preprocessorMacroInfo (defineName usedDefine) with
  | None => true
  | Some macroInfo => negb (isUsedForHeaderGuard macroInfo)
  end.

Definition filterOutHeaderGuards (c : Collector) : Collector :=
  let '(partitioned, partitionPoint) :=
    stable_partition notHeaderGuard (m_maybeUsedDefines c) in
  set_maybeUsedDefines (erase_to_end partitionPoint partitioned) c.

(** The predicate of [filterOutExports]. *)
Definition notExport (usedDefine : UsedDefine) : bool :=
  negb (contains (defineName usedDefine) "EXPORT").

Definition filterOutExports (c : Collector) : Collector :=
  let '(partitioned, partitionPoint) :=
    stable_partition notExport (m_usedDefines c) in
  set_usedDefines (erase_to_end partitionPoint partitioned) c.

Definition mergeUsedDefines (c : Collector) : Collector :=
  let insertionPoint := length (m_usedDefines c) in
  let appended := m_usedDefines c ++ m_maybeUsedDefines c in
  set_usedDefines (inplace_merge UsedDefine_lt insertionPoint appended) c.

Definition EndOfMainFile (c : Collector) : Collector :=
  filterOutExports (mergeUsedDefines (filterOutHeaderGuards c)).

(** ** A pass: the callbacks in the order the preprocessor makes them *)

Inductive Event :=
| OnInclusionDirective (file : option FileEntry)
| OnFileNotFound
| OnIfndef (macroNameToken : Token) (macroDefinition : MacroDefinition)
| OnIfdef (macroNameToken : Token) (macroDefinition : MacroDefinition)
| OnDefined (macroNameToken : Token) (macroDefinition : MacroDefinition)
| OnMacroDefined (macroNameToken : Token)
    (macroDirective : option MacroDirective)
| OnMacroUndefined (macroNameToken : Token)
    (macroDefinition : MacroDefinition)
| OnMacroExpands (macroNameToken : Token)
    (macroDefinition : MacroDefinition).

Definition handle (c : Collector) (event : Event) : Collector :=
  match event with
  | OnInclusionDirective file => InclusionDirective file c
  | OnFileNotFound => fst (FileNotFound c)
  | OnIfndef tok def => Ifndef tok def c
  | OnIfdef tok def => Ifdef tok def c
  | OnDefined tok def => Defined tok def c
  | OnMacroDefined tok dir => MacroDefined tok dir c
  | OnMacroUndefined tok def => MacroUndefined tok def c
  | OnMacroExpands tok def => MacroExpands tok def c
  end.

Definition run (events : list Event) (c : Collector) : Collector :=
  fold_left handle events c.

(** A whole pass over one translation unit, finalization included. *)
Definition pass (events : list Event) : Collector :=
  EndOfMainFile (run events initial).
End Callbacks.

(** ** A concrete front end, for running the callbacks on examples *)

(** Locations carry the file in the bits above the low eight; file [0] is
    unknown and gets the invalid id [-1].  The USR generator fails at odd locations.  [FOO_H] is a
    header guard, [A] an ordinary macro, other names are unknown to the
    preprocessor's table.  A file's id is the length of its name. *)
Definition sampleFrontEnd : FrontEnd :=
  {| locationFilePathId := fun loc => Z.shiftr loc 8 - 1;
     isValid := fun fileId => 0 <=? fileId;
     lineColum := fun loc => mkLineColumn (Z.land loc 255) 1;
     generateUSR := fun name loc =>
       if Z.odd loc then None else Some ("c:@macro@" ++ name)%string;
     cacheFilePathId := fun file => Z.of_nat (String.length file);
     preprocessorMacroInfo := fun name =>
       if (name =? "FOO_H")%string then Some (mkMacroInfo 100 true)
       else if (name =? "A")%string then Some (mkMacroInfo 1 false)
       else None |}.

(** ** Definitions used to state the properties *)

(** The order on macro names, and what it is to be sorted by name. *)
Definition name_lt (a b : string) : Prop := (a <? b)%string = true.

Definition name_le (a b : string) : Prop := (b <? a)%string = false.

Definition strictlySortedByName (l : list UsedDefine) : Prop :=
  StronglySorted name_lt (map defineName l).

Definition sortedByName (l : list UsedDefine) : Prop :=
  StronglySorted name_le (map defineName l).

(** [s] has [p] as a substring. *)
Definition hasSubstring (s p : string) : Prop :=
  exists before after : string, s = (before ++ p ++ after)%string.

(** The name is known to the preprocessor as a header guard. *)
Definition isHeaderGuard `{FE : FrontEnd} (name : string) : Prop :=
  exists macroInfo : MacroInfo,
    preprocessorMacroInfo name = Some macroInfo /\
    isUsedForHeaderGuard macroInfo = true.

(** The redefinition history that hangs from a directive, most recent
    first. *)
Fixpoint chain (d : MacroDirective) : list MacroDirective :=
  match d with
  | Directive _ None => [d]
  | Directive _ (Some previous) => d :: chain previous
  end.

(** The directive an event hands to [firstMacroInfo]. *)
Definition eventDirective (event : Event) : option MacroDirective :=
  match event with
  | OnInclusionDirective _ | OnFileNotFound => None
  | OnIfndef _ def | OnIfdef _ def | OnDefined _ def
  | OnMacroUndefined _ def | OnMacroExpands _ def => getLocalDirective def
  | OnMacroDefined _ dir => dir
  end.

(** The occurrences an event appends to the log. *)
Definition newOccurrences `{FE : FrontEnd} (c : Collector) (event : Event)
  : list SourceLocationEntry :=
  drop (length (m_sourceLocationEntries c))
       (m_sourceLocationEntries (handle c event)).

(** The three gates of [addMacroAsSymbol]. *)
Definition recordable `{FE : FrontEnd} (macroNameToken : Token)
    (macroInfo : option MacroInfo) : Prop :=
  is_Some macroInfo /\
  isFileID (getLocation macroNameToken) = true /\
  isValid (locationFilePathId (getLocation macroNameToken)) = true.

(** The invariant of collection: both used-define sets are strictly
    sorted by name. *)
Definition setsSorted (c : Collector) : Prop :=
  strictlySortedByName (m_usedDefines c) /\
  strictlySortedByName (m_maybeUsedDefines c).

(** The arguments an event hands to [addMacroAsSymbol]. *)
Definition eventOccurrence (event : Event)
  : option (Token * option MacroInfo * SymbolType.t) :=
  match event with
  | OnInclusionDirective _ | OnFileNotFound => None
  | OnIfndef tok def | OnIfdef tok def | OnDefined tok def
  | OnMacroExpands tok def =>
      Some (tok, firstMacroInfo (getLocalDirective def), SymbolType.MacroUsage)
  | OnMacroDefined tok dir =>
      Some (tok, firstMacroInfo dir, SymbolType.MacroDefinition)
  | OnMacroUndefined tok def =>
      Some (tok, firstMacroInfo (getLocalDirective def),
            SymbolType.MacroUndefinition)
  end.

(** The symbol table and the occurrence log together. *)
Definition tables (c : Collector)
  : gmap Z SymbolEntry * list SourceLocationEntry :=
  (m_symbolEntries c, m_sourceLocationEntries c).

(** The occurrence [addMacroAsSymbol] appends for a token. *)
Definition occurrenceOf `{FE : FrontEnd} (macroNameToken : Token)
    (macroInfo : MacroInfo) (symbolType : SymbolType.t)
  : SourceLocationEntry :=
  {| symbolId := toSymbolIndex macroInfo;
     entryFilePathId := locationFilePathId (getLocation macroNameToken);
     lineColumn := lineColum (getLocation macroNameToken);
     symbolType := symbolType |}.

(** ** Sample macros and tokens *)

Definition infoA : MacroInfo := mkMacroInfo 1 false.

(** [A] defined once, and the chain after a redefinition of [A]. *)
Definition directiveA : MacroDirective := Directive (Some infoA) None.

Definition directiveA2 : MacroDirective :=
  Directive (Some (mkMacroInfo 2 false)) (Some directiveA).

Definition tokenA (sourceLocation : SourceLocation) : Token :=
  mkToken sourceLocation "A".

(** [A] as a conditional sees it before and after its definition. *)
Definition undefinedA : MacroDefinition := mkMacroDefinition None None.

Definition definedA : MacroDefinition :=
  mkMacroDefinition (Some infoA) (Some directiveA).

(** A macro of the given name and address, defined once. *)
Definition definedOnce (macroAddress : Z) : MacroDefinition :=
  let info := mkMacroInfo macroAddress false in
  mkMacroDefinition (Some info) (Some (Directive (Some info) None)).

(** ** Further definitions used to state properties of a run *)

(** The arguments an event hands to the member [addUsedDefine]. *)
Definition usedDefineEvent (event : Event) : option (Token * MacroDefinition) :=
  match event with
  | OnIfndef tok def | OnIfdef tok def | OnDefined tok def
  | OnMacroExpands tok def => Some (tok, def)
  | OnInclusionDirective _ | OnFileNotFound
  | OnMacroDefined _ _ | OnMacroUndefined _ _ => None
  end.

(** The occurrences an event contributes to the log: one when the three
    gates of [addMacroAsSymbol] are passed, none otherwise. *)
Definition eventOccurrences `{FE : FrontEnd} (event : Event)
  : list SourceLocationEntry :=
  match eventOccurrence event with
  | Some (tok, Some info, ty) =>
      if isFileID (getLocation tok) &&
         isValid (locationFilePathId (getLocation tok))
      then [occurrenceOf tok info ty] else []
  | _ => []
  end.

(** ** The KEIL toolchain: guessing the ABI from the predefined macros
    ([keiltoolchain.cpp]) *)

Module Keil.

(** The enumerators of [ProjectExplorer::Abi] this file names; the
    architectures it does not name are [OtherArchitecture]. *)
Inductive Architecture :=
  ArmArchitecture | Mcs51Architecture | UnknownArchitecture
| OtherArchitecture.

Inductive BinaryFormat := ElfFormat | OmfFormat | UnknownFormat.

Inductive OS := BareMetalOS.

Inductive OSFlavor := GenericFlavor.

Record Abi := mkAbi {
  architecture : Architecture;
  os : OS;
  osFlavor : OSFlavor;
  binaryFormat : BinaryFormat;
  wordWidth : Z
}.

Inductive MacroType := Invalid | Define | Undefine.

(** [ProjectExplorer::Macro]. *)
Record Macro := mkMacro {
  key : string;
  value : string;
  type : MacroType
}.

Definition MacroType_eqb (a b : MacroType) : bool :=
  match a, b with
  | Invalid, Invalid | Define, Define | Undefine, Undefine => true
  | _, _ => false
  end.

Definition Architecture_eqb (a b : Architecture) : bool :=
  match a, b with
  | ArmArchitecture, ArmArchitecture
  | Mcs51Architecture, Mcs51Architecture
  | UnknownArchitecture, UnknownArchitecture
  | OtherArchitecture, OtherArchitecture => true
  | _, _ => false
  end.

(** [Utils::findOrDefault]: the first element that satisfies the
    predicate, a default-constructed one when there is none. *)
Definition findOrDefault {A : Type} (defaultValue : A) (container : list A)
    (predicate : A -> bool) : A :=
  match List.find predicate container with
  | Some found => found
  | None => defaultValue
  end.

Fixpoint guessArchitecture (macros : list Macro) : Architecture :=
  match macros with
  | [] => UnknownArchitecture
  | macro :: rest =>
      if (key macro =? "__CC_ARM")%string then ArmArchitecture
      else if (key macro =? "__C51__")%string
              || (key macro =? "__CX51__")%string
      then Mcs51Architecture
      else guessArchitecture rest
  end.

Definition guessFormat (arch : Architecture) : BinaryFormat :=
  if Architecture_eqb arch ArmArchitecture then ElfFormat
  else if Architecture_eqb arch Mcs51Architecture then OmfFormat
  else UnknownFormat.

Section WordWidth.
(** What [projectmacro.h] and [QByteArray] decide: the default-constructed
    macro, [Macro::isValid] and [QByteArray::toInt]. *)
Variable defaultMacro : Macro.
Variable isValid : Macro -> bool.
Variable toInt : string -> Z.

(** The result is an [unsigned char]: the product is taken modulo 256. *)
Definition guessWordWidth (macros : list Macro) (arch : Architecture) : Z :=
  if Architecture_eqb arch Mcs51Architecture then 16
  else
    let sizeMacro :=
      findOrDefault defaultMacro macros
        (fun m => (key m =? "__sizeof_int")%string) in
    if isValid sizeMacro && MacroType_eqb (type sizeMacro) Define
    then (toInt (value sizeMacro) * 8) mod 256
    else 0.

Definition guessAbi (macros : list Macro) : Abi :=
  let arch := guessArchitecture macros in
  {| architecture := arch;
     os := BareMetalOS;
     osFlavor := GenericFlavor;
     binaryFormat := guessFormat arch;
     wordWidth := guessWordWidth macros arch |}.
End WordWidth.

End Keil.

(** A macro whose key decides the architecture. *)
Definition recognisedKey (macro : Keil.Macro) : bool :=
  (Keil.key macro =? "__CC_ARM")%string
  || (Keil.key macro =? "__C51__")%string
  || (Keil.key macro =? "__CX51__")%string.



(** ** The order on names *)

Lemma compare_as_OT (a b : string) :
  String.compare a b = String_as_OT.compare a b.
Proof. revert b; induction a; destruct b; simpl; auto. Qed.

Lemma name_lt_iff (a b : string) : name_lt a b <-> String_as_OT.lt a b.
Proof.
  unfold name_lt, String.ltb, String_as_OT.lt.
  rewrite compare_as_OT.
  destruct (String_as_OT.compare a b); split; congruence.
Qed.

Lemma name_lt_irrefl (a : string) : ~ name_lt a a.
Proof.
  rewrite name_lt_iff. apply (StrictOrder_Irreflexive (R := String_as_OT.lt)).
Qed.

Lemma name_lt_trans (a b c : string) : name_lt a b -> name_lt b c -> name_lt a c.
Proof.
  rewrite !name_lt_iff. apply (StrictOrder_Transitive (R := String_as_OT.lt)).
Qed.

Lemma name_trichotomy (a b : string) : name_lt a b \/ a = b \/ name_lt b a.
Proof.
  rewrite !name_lt_iff.
  destruct (String_as_OT.compare_spec a b); auto.
Qed.

Lemma name_le_iff (a b : string) : name_le a b <-> name_lt a b \/ a = b.
Proof.
  unfold name_le. split.
  - intros H. destruct (name_trichotomy a b) as [?|[?|Hba]]; auto.
    unfold name_lt in Hba. congruence.
  - intros [H | ->].
    + destruct (b <? a)%string eqn:E; auto.
      exfalso. apply (name_lt_irrefl a). eapply name_lt_trans; eauto.
    + destruct (b <? b)%string eqn:E; auto.
      exfalso. apply (name_lt_irrefl b). exact E.
Qed.

Lemma name_le_refl (a : string) : name_le a a.
Proof. apply name_le_iff. auto. Qed.

Lemma name_le_trans (a b c : string) : name_le a b -> name_le b c -> name_le a c.
Proof.
  rewrite !name_le_iff. intros [H1 | ->] [H2 | ->]; auto.
  left. eapply name_lt_trans; eauto.
Qed.

Lemma name_lt_le (a b : string) : name_lt a b -> name_le a b.
Proof. rewrite name_le_iff. auto. Qed.

Lemma name_le_total (a b : string) : name_le a b \/ name_lt b a.
Proof.
  unfold name_le, name_lt. destruct (b <? a)%string; auto.
Qed.

(** ** The substring search *)

Lemma prefix_app (p s : string) :
  String.prefix p s = true <-> exists after, s = (p ++ after)%string.
Proof.
  revert s. induction p as [|a p IH]; intros s.
  - split; [intros _; exists s; reflexivity | intros _; now destruct s].
  - destruct s as [|b s]; simpl.
    + split; [discriminate | intros [after H]; discriminate].
    + destruct (ascii_dec a b) as [->|Hne].
      * rewrite IH. split; intros [after H]; exists after.
        -- now rewrite H.
        -- now injection H.
      * split; [discriminate | intros [after H]; injection H; congruence].
Qed.

Lemma contains_unfold (s p : string) :
  contains s p =
  String.prefix p s ||
  match s with EmptyString => false | String _ s' => contains s' p end.
Proof. destruct s; reflexivity. Qed.

Lemma contains_spec (s p : string) :
  contains s p = true <-> hasSubstring s p.
Proof.
  unfold hasSubstring. split.
  - induction s as [|a s IH]; rewrite contains_unfold; intros H;
      apply orb_true_iff in H as [H | H].
    + apply prefix_app in H as [after H]. now exists EmptyString, after.
    + discriminate.
    + apply prefix_app in H as [after H]. now exists EmptyString, after.
    + destruct (IH H) as (before & after & ->).
      now exists (String a before), after.
  - intros (before & after & ->).
    induction before as [|a before IH]; rewrite contains_unfold.
    + apply orb_true_iff. left. apply prefix_app. now exists after.
    + simpl. rewrite IH. apply orb_true_r.
Qed.

Lemma contains_false (s p : string) :
  contains s p = false <-> ~ hasSubstring s p.
Proof.
  rewrite <- contains_spec. destruct (contains s p); split; congruence.
Qed.

(** ** The standard algorithms *)

Section AlgorithmFacts.
Context {A : Type}.

Lemma stable_partition_erase (p : A -> bool) (l : list A) :
  erase_to_end (snd (stable_partition p l)) (fst (stable_partition p l))
  = List.filter p l.
Proof.
  unfold erase_to_end, stable_partition; simpl.
  now rewrite take_app_length.
Qed.

Lemma inplace_merge_app (less : A -> A -> bool) (l1 l2 : list A) :
  inplace_merge less (length l1) (l1 ++ l2) = sorted_merge less l1 l2.
Proof.
  unfold inplace_merge. now rewrite take_app_length, drop_app_length.
Qed.

Lemma sorted_merge_nil_r (less : A -> A -> bool) (l1 : list A) :
  sorted_merge less l1 [] = l1.
Proof. destruct l1; reflexivity. Qed.

Lemma sorted_merge_cons (less : A -> A -> bool) x1 x2 (l1 l2 : list A) :
  sorted_merge less (x1 :: l1) (x2 :: l2) =
  if less x2 x1 then x2 :: sorted_merge less (x1 :: l1) l2
  else x1 :: sorted_merge less l1 (x2 :: l2).
Proof. reflexivity. Qed.

Lemma sorted_merge_In (less : A -> A -> bool) (l1 l2 : list A) (x : A) :
  In x (sorted_merge less l1 l2) <-> In x l1 \/ In x l2.
Proof.
  revert l2. induction l1 as [|x1 l1 IH1]; intros l2.
  - simpl. destruct l2; simpl; tauto.
  - induction l2 as [|x2 l2 IH2].
    + rewrite sorted_merge_nil_r. simpl. tauto.
    + rewrite sorted_merge_cons. destruct (less x2 x1).
      * simpl. rewrite IH2. simpl. tauto.
      * simpl. rewrite IH1. simpl. tauto.
Qed.

Lemma find_not_In (eqb : A -> A -> bool) (l : list A) (v : A) :
  (forall x, eqb x v = true <-> x = v) ->
  l !! find eqb l v = None -> ~ In v l.
Proof.
  intros Heq. induction l as [|x l IH]; simpl; [tauto|].
  destruct (eqb x v) eqn:E; simpl; [discriminate|].
  intros H [Hx | Hin]; [|now apply IH].
  apply Heq in Hx. congruence.
Qed.

Lemma find_lookup (eqb : A -> A -> bool) (l : list A) (v x : A) :
  l !! find eqb l v = Some x -> eqb x v = true.
Proof.
  induction l as [|y l IH]; simpl; [discriminate|].
  destruct (eqb y v) eqn:E; simpl; [congruence | exact IH].
Qed.

Lemma find_end (eqb : A -> A -> bool) (l : list A) (v : A) :
  l !! find eqb l v = None -> find eqb l v = length l.
Proof.
  induction l as [|y l IH]; simpl; [reflexivity|].
  destruct (eqb y v); simpl; [discriminate | intros H; f_equal; auto].
Qed.
End AlgorithmFacts.

(** ** The sorted insert of used defines *)

Lemma addUsedDefineTo_nil (u : UsedDefine) : addUsedDefineTo u [] = [u].
Proof. reflexivity. Qed.

Lemma addUsedDefineTo_cons (u x : UsedDefine) (l : list UsedDefine) :
  addUsedDefineTo u (x :: l) =
  if UsedDefine_lt x u then x :: addUsedDefineTo u l
  else if UsedDefine_neq x u then u :: x :: l
  else x :: l.
Proof.
  unfold addUsedDefineTo. simpl lower_bound.
  destruct (UsedDefine_lt x u); simpl.
  - destruct (l !! lower_bound UsedDefine_lt l u) as [y|]; [|reflexivity].
    destruct (UsedDefine_neq y u); reflexivity.
  - destruct (UsedDefine_neq x u); reflexivity.
Qed.

Lemma UsedDefine_lt_iff (x y : UsedDefine) :
  UsedDefine_lt x y = true <-> name_lt (defineName x) (defineName y).
Proof. reflexivity. Qed.

Lemma UsedDefine_lt_false (x y : UsedDefine) :
  UsedDefine_lt x y = false <-> name_le (defineName y) (defineName x).
Proof. reflexivity. Qed.

Lemma UsedDefine_neq_false (x y : UsedDefine) :
  UsedDefine_neq x y = false <-> defineName x = defineName y.
Proof.
  unfold UsedDefine_neq. rewrite negb_false_iff. apply String.eqb_eq.
Qed.

Lemma UsedDefine_neq_true (x y : UsedDefine) :
  UsedDefine_neq x y = true <-> defineName x <> defineName y.
Proof.
  unfold UsedDefine_neq. rewrite negb_true_iff. apply String.eqb_neq.
Qed.

Lemma addUsedDefineTo_In (u x : UsedDefine) (l : list UsedDefine) :
  In x (addUsedDefineTo u l) -> x = u \/ In x l.
Proof.
  induction l as [|y l IH].
  - rewrite addUsedDefineTo_nil. simpl. intuition.
  - rewrite addUsedDefineTo_cons.
    destruct (UsedDefine_lt y u); [|destruct (UsedDefine_neq y u)];
      simpl; intuition.
Qed.

Lemma addUsedDefineTo_keeps (u x : UsedDefine) (l : list UsedDefine) :
  In x l -> In x (addUsedDefineTo u l).
Proof.
  induction l as [|y l IH]; [intros []|].
  rewrite addUsedDefineTo_cons.
  destruct (UsedDefine_lt y u); [|destruct (UsedDefine_neq y u)];
    simpl; intuition.
Qed.

Lemma addUsedDefineTo_has_name (u : UsedDefine) (l : list UsedDefine) :
  In (defineName u) (map defineName (addUsedDefineTo u l)).
Proof.
  induction l as [|y l IH]; [simpl; auto|].
  rewrite addUsedDefineTo_cons.
  destruct (UsedDefine_lt y u); [simpl; auto|].
  destruct (UsedDefine_neq y u) eqn:E; [simpl; auto|].
  apply UsedDefine_neq_false in E. simpl. auto.
Qed.

Lemma addUsedDefineTo_strictlySorted (u : UsedDefine) (l : list UsedDefine) :
  strictlySortedByName l -> strictlySortedByName (addUsedDefineTo u l).
Proof.
  unfold strictlySortedByName.
  induction l as [|y l IH]; intros Hs.
  - simpl. repeat constructor.
  - rewrite addUsedDefineTo_cons. simpl in Hs.
    apply StronglySorted_inv in Hs as [Hl Hy].
    destruct (UsedDefine_lt y u) eqn:Elt.
    + simpl. constructor; [auto|].
      apply List.Forall_forall. intros n Hn.
      apply in_map_iff in Hn as (x & <- & Hx).
      apply addUsedDefineTo_In in Hx as [-> | Hx]; [exact Elt|].
      rewrite List.Forall_forall in Hy. apply Hy. now apply in_map.
    + destruct (UsedDefine_neq y u) eqn:Ene.
      * apply UsedDefine_neq_true in Ene.
        assert (Huy : name_lt (defineName u) (defineName y)).
        { destruct (name_trichotomy (defineName u) (defineName y))
            as [?|[?|Hyu]]; [auto|congruence|].
          apply UsedDefine_lt_iff in Hyu. congruence. }
        simpl. constructor; [constructor; auto|].
        constructor; [auto|].
        eapply List.Forall_impl; [|exact Hy].
        intros n Hn. simpl in Hn. eapply name_lt_trans; eauto.
      * simpl. constructor; auto.
Qed.

Lemma filter_StronglySorted {A B : Type} (R : B -> B -> Prop) (f : A -> B)
    (p : A -> bool) (l : list A) :
  StronglySorted R (map f l) -> StronglySorted R (map f (List.filter p l)).
Proof.
  induction l as [|x l IH]; simpl; intros Hs; [constructor|].
  apply StronglySorted_inv in Hs as [Hl Hx].
  destruct (p x); simpl; [|auto].
  constructor; [auto|].
  apply List.Forall_forall. intros b Hb.
  apply in_map_iff in Hb as (y & <- & Hy).
  apply filter_In in Hy as [Hy _].
  rewrite List.Forall_forall in Hx. apply Hx. now apply in_map.
Qed.

Lemma strictlySorted_sorted (l : list UsedDefine) :
  strictlySortedByName l -> sortedByName l.
Proof.
  unfold strictlySortedByName, sortedByName.
  induction 1 as [|n ns Hs IH Hn]; constructor; auto.
  eapply List.Forall_impl; [|exact Hn]. intros m. apply name_lt_le.
Qed.

Lemma sorted_merge_sortedByName (l1 l2 : list UsedDefine) :
  sortedByName l1 -> sortedByName l2 ->
  sortedByName (sorted_merge UsedDefine_lt l1 l2).
Proof.
  unfold sortedByName. revert l2.
  induction l1 as [|x1 l1 IH1]; intros l2 H1 H2.
  - destruct l2; exact H2.
  - induction l2 as [|x2 l2 IH2].
    + rewrite sorted_merge_nil_r. exact H1.
    + rewrite sorted_merge_cons.
      pose proof H1 as H1'. pose proof H2 as H2'.
      simpl in H1', H2'.
      apply StronglySorted_inv in H1' as [Hs1 Hx1].
      apply StronglySorted_inv in H2' as [Hs2 Hx2].
      rewrite List.Forall_forall in Hx1, Hx2.
      destruct (UsedDefine_lt x2 x1) eqn:E.
      * cbn [map]. constructor; [apply IH2; auto|].
        apply List.Forall_forall. intros n Hn.
        apply in_map_iff in Hn as (y & <- & Hy).
        apply sorted_merge_In in Hy as [[-> | Hy] | Hy].
        -- apply name_lt_le. exact E.
        -- apply name_le_trans with (defineName x1).
           ++ apply name_lt_le. exact E.
           ++ apply Hx1. now apply in_map.
        -- apply Hx2. now apply in_map.
      * apply UsedDefine_lt_false in E.
        cbn [map]. constructor; [apply IH1; auto|].
        apply List.Forall_forall. intros n Hn.
        apply in_map_iff in Hn as (y & <- & Hy).
        apply sorted_merge_In in Hy as [Hy | [-> | Hy]].
        -- apply Hx1. now apply in_map.
        -- exact E.
        -- apply name_le_trans with (defineName x2); [exact E|].
           apply Hx2. now apply in_map.
Qed.

(** ** What each callback leaves alone *)

Section Frames.
Context `{FE : FrontEnd}.

Lemma addMacroAsSymbol_frame tok info ty c :
  m_usedDefines (addMacroAsSymbol tok info ty c) = m_usedDefines c /\
  m_maybeUsedDefines (addMacroAsSymbol tok info ty c) = m_maybeUsedDefines c /\
  m_sourceFiles (addMacroAsSymbol tok info ty c) = m_sourceFiles c /\
  m_skipInclude (addMacroAsSymbol tok info ty c) = m_skipInclude c.
Proof.
  unfold addMacroAsSymbol.
  destruct info as [info|]; [|auto].
  destruct (isFileID (getLocation tok)); [|auto].
  destruct (isValid (locationFilePathId (getLocation tok))); [|auto].
  destruct (m_symbolEntries c !! toSymbolIndex info); [simpl; auto|].
  destruct (generateUSR (getName tok) (getLocation tok)); simpl; auto.
Qed.

Lemma addUsedDefine_frame tok def c :
  m_symbolEntries (addUsedDefine tok def c) = m_symbolEntries c /\
  m_sourceLocationEntries (addUsedDefine tok def c)
    = m_sourceLocationEntries c /\
  m_sourceFiles (addUsedDefine tok def c) = m_sourceFiles c /\
  m_skipInclude (addUsedDefine tok def c) = m_skipInclude c.
Proof.
  unfold addUsedDefine. destruct (getMacroInfo def); simpl; auto.
Qed.

Lemma addSourceFile_frame file c :
  m_symbolEntries (addSourceFile file c) = m_symbolEntries c /\
  m_sourceLocationEntries (addSourceFile file c)
    = m_sourceLocationEntries c /\
  m_usedDefines (addSourceFile file c) = m_usedDefines c /\
  m_maybeUsedDefines (addSourceFile file c) = m_maybeUsedDefines c.
Proof.
  unfold addSourceFile.
  destruct (m_sourceFiles c !! _) as [x|]; [|simpl; auto].
  destruct (negb (x =? cacheFilePathId file)); simpl; auto.
Qed.

Lemma InclusionDirective_frame file c :
  m_symbolEntries (InclusionDirective file c) = m_symbolEntries c /\
  m_sourceLocationEntries (InclusionDirective file c)
    = m_sourceLocationEntries c /\
  m_usedDefines (InclusionDirective file c) = m_usedDefines c /\
  m_maybeUsedDefines (InclusionDirective file c) = m_maybeUsedDefines c.
Proof.
  unfold InclusionDirective.
  destruct file as [f|]; [|simpl; auto].
  destruct (negb (m_skipInclude c)); [|simpl; auto].
  simpl. apply addSourceFile_frame.
Qed.

(** An event that is not a conditional test or an expansion leaves both
    used-define sets as they are; the other four run [addUsedDefine]. *)
Lemma handle_usedDefines c event :
  (m_usedDefines (handle c event) = m_usedDefines c /\
   m_maybeUsedDefines (handle c event) = m_maybeUsedDefines c) \/
  (exists tok def,
     m_usedDefines (handle c event)
       = m_usedDefines (addUsedDefine tok def c) /\
     m_maybeUsedDefines (handle c event)
       = m_maybeUsedDefines (addUsedDefine tok def c)).
Proof.
  destruct event as [file| |tok def|tok def|tok def|tok dir|tok def|tok def];
    simpl.
  - left. pose proof (InclusionDirective_frame file c). tauto.
  - left. auto.
  - right. exists tok, def. unfold Ifndef.
    pose proof (addMacroAsSymbol_frame tok
      (firstMacroInfo (getLocalDirective def)) SymbolType.MacroUsage
      (addUsedDefine tok def c)). tauto.
  - right. exists tok, def. unfold Ifdef.
    pose proof (addMacroAsSymbol_frame tok
      (firstMacroInfo (getLocalDirective def)) SymbolType.MacroUsage
      (addUsedDefine tok def c)). tauto.
  - right. exists tok, def. unfold Defined.
    pose proof (addMacroAsSymbol_frame tok
      (firstMacroInfo (getLocalDirective def)) SymbolType.MacroUsage
      (addUsedDefine tok def c)). tauto.
  - left. unfold MacroDefined.
    pose proof (addMacroAsSymbol_frame tok (firstMacroInfo dir)
      SymbolType.MacroDefinition c). tauto.
  - left. unfold MacroUndefined.
    pose proof (addMacroAsSymbol_frame tok
      (firstMacroInfo (getLocalDirective def))
      SymbolType.MacroUndefinition c). tauto.
  - right. exists tok, def. unfold MacroExpands.
    pose proof (addMacroAsSymbol_frame tok
      (firstMacroInfo (getLocalDirective def)) SymbolType.MacroUsage
      (addUsedDefine tok def c)). tauto.
Qed.

(** ** Both used-define sets stay strictly sorted during collection *)

Lemma addUsedDefine_setsSorted tok def c :
  setsSorted c -> setsSorted (addUsedDefine tok def c).
Proof.
  unfold setsSorted, addUsedDefine. intros [Hu Hm].
  destruct (getMacroInfo def); simpl; split; auto;
    now apply addUsedDefineTo_strictlySorted.
Qed.

Lemma handle_setsSorted c event :
  setsSorted c -> setsSorted (handle c event).
Proof.
  intros Hc.
  destruct (handle_usedDefines c event) as [[Hu Hm] | (tok & def & Hu & Hm)];
    unfold setsSorted; rewrite Hu, Hm.
  - exact Hc.
  - now apply addUsedDefine_setsSorted.
Qed.

Lemma run_setsSorted events c :
  setsSorted c -> setsSorted (run events c).
Proof.
  revert c. induction events as [|e events IH]; intros c Hc; [exact Hc|].
  simpl. apply IH. now apply handle_setsSorted.
Qed.

Lemma initial_setsSorted : setsSorted initial.
Proof. split; constructor. Qed.
End Frames.

(** ** Finalization *)

Section Finalization.
Context `{FE : FrontEnd}.

Lemma filterOutHeaderGuards_eq c :
  filterOutHeaderGuards c =
  set_maybeUsedDefines (List.filter notHeaderGuard (m_maybeUsedDefines c)) c.
Proof.
  unfold filterOutHeaderGuards.
  pose proof (stable_partition_erase notHeaderGuard (m_maybeUsedDefines c))
    as H.
  destruct (stable_partition notHeaderGuard (m_maybeUsedDefines c))
    as [partitioned partitionPoint].
  simpl in H. now rewrite H.
Qed.

Lemma filterOutExports_eq c :
  filterOutExports c =
  set_usedDefines (List.filter notExport (m_usedDefines c)) c.
Proof.
  unfold filterOutExports.
  pose proof (stable_partition_erase notExport (m_usedDefines c)) as H.
  destruct (stable_partition notExport (m_usedDefines c))
    as [partitioned partitionPoint].
  simpl in H. now rewrite H.
Qed.

Lemma mergeUsedDefines_eq c :
  mergeUsedDefines c =
  set_usedDefines
    (sorted_merge UsedDefine_lt (m_usedDefines c) (m_maybeUsedDefines c)) c.
Proof. unfold mergeUsedDefines. now rewrite inplace_merge_app. Qed.

Lemma EndOfMainFile_usedDefines c :
  m_usedDefines (EndOfMainFile c) =
  List.filter notExport
    (sorted_merge UsedDefine_lt (m_usedDefines c)
       (List.filter notHeaderGuard (m_maybeUsedDefines c))).
Proof.
  unfold EndOfMainFile.
  now rewrite filterOutExports_eq, mergeUsedDefines_eq,
    filterOutHeaderGuards_eq.
Qed.

Lemma EndOfMainFile_frame c :
  m_symbolEntries (EndOfMainFile c) = m_symbolEntries c /\
  m_sourceLocationEntries (EndOfMainFile c) = m_sourceLocationEntries c /\
  m_sourceFiles (EndOfMainFile c) = m_sourceFiles c.
Proof.
  unfold EndOfMainFile.
  now rewrite filterOutExports_eq, mergeUsedDefines_eq,
    filterOutHeaderGuards_eq.
Qed.

Lemma notHeaderGuard_iff (u : UsedDefine) :
  notHeaderGuard u = true <-> ~ isHeaderGuard (defineName u).
Proof.
  unfold notHeaderGuard, isHeaderGuard.
  destruct (preprocessorMacroInfo (defineName u)) as [info|].
  - destruct (isUsedForHeaderGuard info) eqn:E; simpl; split.
    + discriminate.
    + intros H. exfalso. apply H. now exists info.
    + intros _ (info' & Heq & Hg). congruence.
    + reflexivity.
  - split; [|reflexivity]. intros _ (info & Heq & _). discriminate.
Qed.

Lemma notExport_iff (u : UsedDefine) :
  notExport u = true <-> ~ hasSubstring (defineName u) "EXPORT".
Proof.
  unfold notExport. rewrite negb_true_iff. apply contains_false.
Qed.

(** Whatever the events, finalization leaves the used defines in
    ascending order of name; equal names may stand next to each other. *)
Lemma EndOfMainFile_sortedByName c :
  setsSorted c -> sortedByName (m_usedDefines (EndOfMainFile c)).
Proof.
  intros [Hu Hm]. rewrite EndOfMainFile_usedDefines.
  apply filter_StronglySorted. apply sorted_merge_sortedByName.
  - now apply strictlySorted_sorted.
  - apply filter_StronglySorted. now apply strictlySorted_sorted.
Qed.

Lemma pass_sortedByName (events : list Event) :
  sortedByName (m_usedDefines (pass events)).
Proof.
  apply EndOfMainFile_sortedByName, run_setsSorted, initial_setsSorted.
Qed.
End Finalization.

Lemma filter_complement_Permutation {A : Type} (p : A -> bool) (l : list A) :
  Permutation l (List.filter p l ++ List.filter (fun x => negb (p x)) l).
Proof.
  induction l as [|x l IH]; simpl; [constructor|].
  destruct (p x); simpl.
  - now constructor.
  - now apply Permutation_cons_app.
Qed.

Lemma filter_sublist {A : Type} (p : A -> bool) (l : list A) :
  sublist (List.filter p l) l.
Proof.
  induction l as [|x l IH]; simpl; [constructor|].
  destruct (p x); now constructor.
Qed.

(** ** When the merged sequence is strictly sorted *)

(** The merge keeps every element of both sequences, whatever the order. *)
Lemma sorted_merge_Permutation {A : Type} (less : A -> A -> bool)
    (l1 l2 : list A) :
  Permutation (sorted_merge less l1 l2) (l1 ++ l2).
Proof.
  revert l2. induction l1 as [|x1 l1 IH1]; intros l2.
  - destruct l2; reflexivity.
  - induction l2 as [|x2 l2 IH2].
    + rewrite sorted_merge_nil_r, app_nil_r. reflexivity.
    + rewrite sorted_merge_cons. destruct (less x2 x1).
      * rewrite IH2. apply (Permutation_middle (x1 :: l1) l2 x2).
      * now rewrite IH1.
Qed.

Lemma filter_Permutation_bool {A : Type} (p : A -> bool) (l1 l2 : list A) :
  Permutation l1 l2 -> Permutation (List.filter p l1) (List.filter p l2).
Proof.
  induction 1 as [|x l1 l2 _ IH|x y l|l1 l2 l3 _ IH1 _ IH2]; simpl.
  - constructor.
  - destruct (p x); [now constructor | exact IH].
  - destruct (p x), (p y); try reflexivity. constructor.
  - now transitivity (List.filter p l2).
Qed.

Lemma sorted_merge_strictlySortedByName (l1 l2 : list UsedDefine) :
  strictlySortedByName l1 -> strictlySortedByName l2 ->
  (forall u1 u2, In u1 l1 -> In u2 l2 -> defineName u1 <> defineName u2) ->
  strictlySortedByName (sorted_merge UsedDefine_lt l1 l2).
Proof.
  unfold strictlySortedByName. revert l2.
  induction l1 as [|x1 l1 IH1]; intros l2 H1 H2 Hdisjoint.
  - destruct l2; exact H2.
  - induction l2 as [|x2 l2 IH2].
    + rewrite sorted_merge_nil_r. exact H1.
    + rewrite sorted_merge_cons.
      pose proof H1 as H1'. pose proof H2 as H2'.
      simpl in H1', H2'.
      apply StronglySorted_inv in H1' as [Hs1 Hx1].
      apply StronglySorted_inv in H2' as [Hs2 Hx2].
      rewrite List.Forall_forall in Hx1, Hx2.
      destruct (UsedDefine_lt x2 x1) eqn:E.
      * cbn [map]. constructor.
        -- apply IH2; [exact Hs2|].
           intros u1 u2 Hu1 Hu2. apply Hdisjoint; [exact Hu1 | now right].
        -- apply List.Forall_forall. intros n Hn.
           apply in_map_iff in Hn as (y & <- & Hy).
           apply sorted_merge_In in Hy as [[-> | Hy] | Hy].
           ++ exact E.
           ++ apply name_lt_trans with (defineName x1); [exact E|].
              apply Hx1. now apply in_map.
           ++ apply Hx2. now apply in_map.
      * apply UsedDefine_lt_false, name_le_iff in E.
        assert (Hlt : name_lt (defineName x1) (defineName x2)).
        { destruct E as [E | E]; [exact E|].
          exfalso. apply (Hdisjoint x1 x2); [now left | now left | exact E]. }
        cbn [map]. constructor.
        -- apply IH1; [exact Hs1 | exact H2 |].
           intros u1 u2 Hu1 Hu2. apply Hdisjoint; [now right | exact Hu2].
        -- apply List.Forall_forall. intros n Hn.
           apply in_map_iff in Hn as (y & <- & Hy).
           apply sorted_merge_In in Hy as [Hy | [-> | Hy]].
           ++ apply Hx1. now apply in_map.
           ++ exact Hlt.
           ++ apply name_lt_trans with (defineName x2); [exact Hlt|].
              apply Hx2. now apply in_map.
Qed.

(** The final sequence is strictly sorted when no name is both in the
    confirmed set and, past the header-guard filter, in the tentative
    set. *)
Lemma EndOfMainFile_strictlySorted_disjoint `{FE : FrontEnd} (c : Collector) :
  setsSorted c ->
  (forall u1 u2, In u1 (m_usedDefines c) -> In u2 (m_maybeUsedDefines c) ->
                 notHeaderGuard u2 = true ->
                 defineName u1 <> defineName u2) ->
  strictlySortedByName (m_usedDefines (EndOfMainFile c)).
Proof.
  intros [Hu Hm] Hdisjoint. rewrite EndOfMainFile_usedDefines.
  apply filter_StronglySorted. apply sorted_merge_strictlySortedByName.
  - exact Hu.
  - now apply filter_StronglySorted.
  - intros u1 u2 Hu1 Hu2. apply filter_In in Hu2 as [Hu2 Hg].
    now apply Hdisjoint.
Qed.

(** A name of both sets that passes both filters is in the final sequence
    twice. *)
Lemma EndOfMainFile_duplicate `{FE : FrontEnd} (c : Collector)
    (u1 u2 : UsedDefine) :
  In u1 (m_usedDefines c) -> In u2 (m_maybeUsedDefines c) ->
  defineName u1 = defineName u2 ->
  notHeaderGuard u2 = true -> notExport u1 = true ->
  ~ NoDup (map defineName (m_usedDefines (EndOfMainFile c))).
Proof.
  intros Hu1 Hu2 Hname Hguard Hexport Hnd.
  rewrite EndOfMainFile_usedDefines in Hnd.
  pose proof (filter_Permutation_bool notExport _ _
                (sorted_merge_Permutation UsedDefine_lt (m_usedDefines c)
                   (List.filter notHeaderGuard (m_maybeUsedDefines c))))
    as Hperm.
  apply (Permutation_map defineName) in Hperm.
  rewrite List.filter_app, map_app in Hperm.
  rewrite Hperm in Hnd. apply NoDup_app in Hnd as (_ & Hdisjoint & _).
  apply (Hdisjoint (defineName u1)).
  - apply list_elem_of_In, in_map, filter_In. now split.
  - rewrite Hname. apply list_elem_of_In, in_map, filter_In. split.
    + apply filter_In. now split.
    + unfold notExport in *. now rewrite <- Hname.
Qed.

(** ** The claims about finalization *)

(** C1: the run [#ifdef A] (A not yet defined), [#define A], [#ifdef A]
    records the name [A] once in the tentative and once in the confirmed
    set; after end-of-file finalization the used defines hold [A] twice, so
    the final sequence is neither strictly sorted by name nor free of
    duplicate names. *)
Theorem EndOfMainFile_keeps_name_of_both_sets :
  let events :=
    [OnIfdef (tokenA 266) undefinedA;
     OnMacroDefined (tokenA 276) (Some directiveA);
     OnIfdef (tokenA 286) definedA] in
  let collected := run (FE := sampleFrontEnd) events initial in
  let final := m_usedDefines (pass (FE := sampleFrontEnd) events) in
  map defineName (m_usedDefines collected) = ["A"%string] /\
  map defineName (m_maybeUsedDefines collected) = ["A"%string] /\
  map defineName final = ["A"%string; "A"%string] /\
  ~ strictlySortedByName final /\
  ~ NoDup (map defineName final).
Proof.
  cbv zeta.
  assert (Hfinal :
    map defineName
      (m_usedDefines
         (pass (FE := sampleFrontEnd)
            [OnIfdef (tokenA 266) undefinedA;
             OnMacroDefined (tokenA 276) (Some directiveA);
             OnIfdef (tokenA 286) definedA]))
    = ["A"%string; "A"%string]) by (vm_compute; reflexivity).
  split; [vm_compute; reflexivity|].
  split; [vm_compute; reflexivity|].
  split; [exact Hfinal|].
  unfold strictlySortedByName. rewrite Hfinal. split.
  - intros Hs. apply StronglySorted_inv in Hs as [_ Hhd].
    apply Forall_inv in Hhd. revert Hhd. apply name_lt_irrefl.
  - intros Hnd. apply NoDup_cons_1_1 in Hnd. apply Hnd. left.
Qed.

(** C5: the header-guard filter keeps, in their order, exactly the
    tentative entries whose name is not known to the preprocessor as a
    header guard, removes exactly those that are, keeps an entry for whose
    name the lookup yields no macro info, and leaves the confirmed set
    untouched. *)
Theorem filterOutHeaderGuards_removes_exactly_guards `{FE : FrontEnd}
    (c : Collector) :
  let kept := m_maybeUsedDefines (filterOutHeaderGuards c) in
  (forall u, In u kept <->
             In u (m_maybeUsedDefines c) /\ ~ isHeaderGuard (defineName u)) /\
  (exists removed,
     Permutation (m_maybeUsedDefines c) (kept ++ removed) /\
     Forall (fun u => isHeaderGuard (defineName u)) removed) /\
  sublist kept (m_maybeUsedDefines c) /\
  (forall u, In u (m_maybeUsedDefines c) ->
             preprocessorMacroInfo (defineName u) = None -> In u kept) /\
  m_usedDefines (filterOutHeaderGuards c) = m_usedDefines c.
Proof.
  cbv zeta. rewrite filterOutHeaderGuards_eq. simpl.
  split; [|split; [|split; [|split]]].
  - intros u. rewrite filter_In, notHeaderGuard_iff. reflexivity.
  - exists (List.filter (fun u => negb (notHeaderGuard u))
              (m_maybeUsedDefines c)).
    split; [apply filter_complement_Permutation|].
    apply List.Forall_forall. intros u Hu.
    apply filter_In in Hu as [_ Hu]. apply negb_true_iff in Hu.
    unfold notHeaderGuard in Hu. unfold isHeaderGuard.
    destruct (preprocessorMacroInfo (defineName u)) as [info|];
      [|discriminate].
    exists info. split; [reflexivity|]. now apply negb_false_iff.
  - apply filter_sublist.
  - intros u Hin Hnone. apply filter_In. split; [exact Hin|].
    unfold notHeaderGuard. now rewrite Hnone.
  - reflexivity.
Qed.

(** C7: after finalization no used define whose name contains [EXPORT]
    is left, wherever it came from; an entry of the confirmed set, or of
    the tentative set past the header-guard filter, whose name does not
    contain [EXPORT] is in the final sequence, and the export filter itself
    removes no such entry of the merged sequence.  [MYLIB_EXPORT] and
    [MYLIB_FEATURE], both expanded, end as [MYLIB_FEATURE] alone. *)
Theorem EndOfMainFile_filters_exports `{FE : FrontEnd} (c : Collector) :
  (forall u, In u (m_usedDefines (EndOfMainFile c)) ->
             ~ hasSubstring (defineName u) "EXPORT") /\
  (forall u, ~ hasSubstring (defineName u) "EXPORT" ->
             In u (m_usedDefines c) \/
             (In u (m_maybeUsedDefines c) /\ ~ isHeaderGuard (defineName u)) ->
             In u (m_usedDefines (EndOfMainFile c))) /\
  (forall merged u, ~ hasSubstring (defineName u) "EXPORT" ->
             In u (m_usedDefines merged) ->
             In u (m_usedDefines (filterOutExports merged))) /\
  map defineName
    (m_usedDefines
       (pass (FE := sampleFrontEnd)
          [OnMacroExpands (mkToken 266 "MYLIB_EXPORT") (definedOnce 7);
           OnMacroExpands (mkToken 276 "MYLIB_FEATURE") (definedOnce 8)]))
  = ["MYLIB_FEATURE"%string].
Proof.
  split; [|split; [|split]].
  - intros u Hu. rewrite EndOfMainFile_usedDefines in Hu.
    apply filter_In in Hu as [_ Hu]. now apply notExport_iff.
  - intros u Hne Hu. rewrite EndOfMainFile_usedDefines.
    apply filter_In. split; [|now apply notExport_iff].
    apply sorted_merge_In. destruct Hu as [Hu | [Hu Hg]]; [now left|].
    right. apply filter_In. split; [exact Hu|]. now apply notHeaderGuard_iff.
  - intros merged u Hne Hu. rewrite filterOutExports_eq. simpl.
    apply filter_In. split; [exact Hu|]. now apply notExport_iff.
  - vm_compute. reflexivity.
Qed.

(** ** The symbol table and the occurrence log *)

Section SymbolTable.
Context `{FE : FrontEnd}.

(** [addMacroAsSymbol] reads and writes the two tables only. *)
Lemma addMacroAsSymbol_tables tok info ty c1 c2 :
  tables c1 = tables c2 ->
  tables (addMacroAsSymbol tok info ty c1)
  = tables (addMacroAsSymbol tok info ty c2).
Proof.
  unfold tables. intros H. injection H as Hs Hl.
  unfold addMacroAsSymbol.
  destruct info as [info|]; [|congruence].
  destruct (isFileID (getLocation tok)); [|congruence].
  destruct (isValid (locationFilePathId (getLocation tok))); [|congruence].
  rewrite Hs.
  destruct (m_symbolEntries c2 !! toSymbolIndex info);
    [simpl; congruence|].
  destruct (generateUSR (getName tok) (getLocation tok));
    simpl; congruence.
Qed.

Lemma addUsedDefine_tables tok def c :
  tables (addUsedDefine tok def c) = tables c.
Proof.
  unfold tables. pose proof (addUsedDefine_frame tok def c) as (-> & -> & _).
  reflexivity.
Qed.

(** The tables after an event are those after the one call of
    [addMacroAsSymbol] the event makes. *)
Lemma handle_tables c event :
  tables (handle c event) =
  match eventOccurrence event with
  | Some (tok, info, ty) => tables (addMacroAsSymbol tok info ty c)
  | None => tables c
  end.
Proof.
  destruct event as [file| |tok def|tok def|tok def|tok dir|tok def|tok def];
    simpl; try reflexivity;
    try (apply addMacroAsSymbol_tables, addUsedDefine_tables).
  unfold tables.
  pose proof (InclusionDirective_frame file c) as (-> & -> & _).
  reflexivity.
Qed.

(** The tables after a recordable occurrence. *)
Lemma addMacroAsSymbol_recorded tok info ty c :
  isFileID (getLocation tok) = true ->
  isValid (locationFilePathId (getLocation tok)) = true ->
  tables (addMacroAsSymbol tok (Some info) ty c) =
  (match m_symbolEntries c !! toSymbolIndex info with
   | Some _ => m_symbolEntries c
   | None =>
       match generateUSR (getName tok) (getLocation tok) with
       | Some usr =>
           <[toSymbolIndex info := mkSymbolEntry usr (getName tok)]>
             (m_symbolEntries c)
       | None => m_symbolEntries c
       end
   end,
   m_sourceLocationEntries c ++ [occurrenceOf tok info ty]).
Proof.
  intros Hfile Hvalid. unfold tables, addMacroAsSymbol.
  rewrite Hfile, Hvalid.
  destruct (m_symbolEntries c !! toSymbolIndex info); [reflexivity|].
  destruct (generateUSR (getName tok) (getLocation tok)); reflexivity.
Qed.

(** The tables after an occurrence that fails one of the gates. *)
Lemma addMacroAsSymbol_skipped tok info ty c :
  ~ recordable tok info -> addMacroAsSymbol tok info ty c = c.
Proof.
  unfold recordable, addMacroAsSymbol. intros Hn.
  destruct info as [info|]; [|reflexivity].
  destruct (isFileID (getLocation tok)); [|reflexivity].
  destruct (isValid (locationFilePathId (getLocation tok))); [|reflexivity].
  exfalso. apply Hn. eauto.
Qed.

Lemma addMacroAsSymbol_preserves tok info ty c id entry :
  m_symbolEntries c !! id = Some entry ->
  m_symbolEntries (addMacroAsSymbol tok info ty c) !! id = Some entry.
Proof.
  intros Hid. unfold addMacroAsSymbol.
  destruct info as [info|]; [|exact Hid].
  destruct (isFileID (getLocation tok)); [|exact Hid].
  destruct (isValid (locationFilePathId (getLocation tok))); [|exact Hid].
  destruct (m_symbolEntries c !! toSymbolIndex info) eqn:Hfound;
    [exact Hid|].
  destruct (generateUSR (getName tok) (getLocation tok)); [|exact Hid].
  simpl. rewrite lookup_insert_ne; [exact Hid|].
  intros Heq. rewrite Heq in Hfound.
  pose proof (eq_trans (eq_sym Hid) Hfound). discriminate.
Qed.

Lemma handle_preserves c event id entry :
  m_symbolEntries c !! id = Some entry ->
  m_symbolEntries (handle c event) !! id = Some entry.
Proof.
  intros Hid.
  change (m_symbolEntries (handle c event)) with (fst (tables (handle c event))).
  rewrite handle_tables.
  destruct (eventOccurrence event) as [[[tok info] ty]|]; [|exact Hid].
  now apply addMacroAsSymbol_preserves.
Qed.

Lemma run_preserves events c id entry :
  m_symbolEntries c !! id = Some entry ->
  m_symbolEntries (run events c) !! id = Some entry.
Proof.
  revert c. induction events as [|e events IH]; intros c Hid; [exact Hid|].
  simpl. apply IH. now apply handle_preserves.
Qed.
End SymbolTable.

(** ** The claims about the symbol table *)

(** C3, as the code has it: when USR generation fails on an occurrence
    that would create the SymbolEntry, the entry is omitted at that
    occurrence; an occurrence of the identity processed while the table
    still has no entry for it calls the generator again, and inserts the
    SymbolEntry when generation succeeds. *)
Theorem absent_entry_retries_generation `{FE : FrontEnd}
    (c : Collector) (event : Event) (tok : Token) (info : MacroInfo)
    (ty : SymbolType.t) :
  eventOccurrence event = Some (tok, Some info, ty) ->
  isFileID (getLocation tok) = true ->
  isValid (locationFilePathId (getLocation tok)) = true ->
  m_symbolEntries c !! toSymbolIndex info = None ->
  m_symbolEntries (handle c event) =
  match generateUSR (getName tok) (getLocation tok) with
  | Some usr =>
      <[toSymbolIndex info := mkSymbolEntry usr (getName tok)]>
        (m_symbolEntries c)
  | None => m_symbolEntries c
  end.
Proof.
  intros Hocc Hfile Hvalid Habsent.
  change (m_symbolEntries (handle c event)) with (fst (tables (handle c event))).
  rewrite handle_tables, Hocc, addMacroAsSymbol_recorded by assumption.
  simpl. now rewrite Habsent.
Qed.

(** C8: whatever the events, the symbol table has at most one row per
    identity, and an entry that is in the table stays as it is through
    every later event and through finalization: it is neither doubled nor
    overwritten. *)
Theorem symbolEntries_one_row_per_identity `{FE : FrontEnd}
    (events : list Event) (c : Collector) (id : SymbolIndex)
    (entry : SymbolEntry) :
  NoDup (map_to_list (m_symbolEntries (run events c))).*1 /\
  (m_symbolEntries c !! id = Some entry ->
   (forall event, m_symbolEntries (handle c event) !! id = Some entry) /\
   m_symbolEntries (run events c) !! id = Some entry /\
   m_symbolEntries (EndOfMainFile (run events c)) !! id = Some entry /\
   length (List.filter (fun row => fst row =? id)
             (map_to_list (m_symbolEntries (run events c)))) = 1%nat).
Proof.
  split; [apply NoDup_fst_map_to_list|].
  intros Hid.
  pose proof (run_preserves events c id entry Hid) as Hrun.
  split; [intros event; now apply handle_preserves|].
  split; [exact Hrun|].
  split.
  - pose proof (EndOfMainFile_frame (run events c)) as (-> & _). exact Hrun.
  - revert Hrun. generalize (m_symbolEntries (run events c)). intros m Hm.
    rewrite <- (insert_id m id entry Hm), <- insert_delete_eq.
    assert (Hd : delete id m !! id = None) by apply lookup_delete_eq.
    assert (Hperm := map_to_list_insert (delete id m) id entry Hd).
    assert (Hlen : forall l1 l2 : list (Z * SymbolEntry), l1 ≡ₚ l2 ->
              length (List.filter (fun row => fst row =? id) l1)
              = length (List.filter (fun row => fst row =? id) l2)).
    { induction 1 as [|x l1 l2 _ IH|x y l|l1 l2 l3 _ IH1 _ IH2]; simpl.
      - reflexivity.
      - destruct (fst x =? id); simpl; congruence.
      - destruct (fst x =? id), (fst y =? id); reflexivity.
      - congruence. }
    rewrite (Hlen _ _ Hperm). simpl. rewrite Z.eqb_refl. simpl. f_equal.
    assert (Hnone : forall row, In row (map_to_list (delete id m)) ->
              (fst row =? id) = false).
    { intros [k v] Hin. simpl. apply Z.eqb_neq. intros ->.
      apply list_elem_of_In, elem_of_map_to_list in Hin.
      pose proof (eq_trans (eq_sym Hin) Hd). discriminate. }
    revert Hnone. generalize (map_to_list (delete id m)).
    induction l as [|row l IH]; intros Hnone; [reflexivity|].
    simpl. rewrite (Hnone row) by (now left).
    apply IH. intros r Hr. apply Hnone. now right.
Qed.

(** C9: when an occurrence whose macro identity resolves is processed and
    USR generation fails for it, the symbol table is left as it was and the
    occurrence is appended to the log. *)
Theorem failed_generation_keeps_occurrence `{FE : FrontEnd}
    (c : Collector) (event : Event) (tok : Token) (info : MacroInfo)
    (ty : SymbolType.t) :
  eventOccurrence event = Some (tok, Some info, ty) ->
  isFileID (getLocation tok) = true ->
  isValid (locationFilePathId (getLocation tok)) = true ->
  generateUSR (getName tok) (getLocation tok) = None ->
  m_symbolEntries (handle c event) = m_symbolEntries c /\
  m_sourceLocationEntries (handle c event)
  = m_sourceLocationEntries c ++ [occurrenceOf tok info ty].
Proof.
  intros Hocc Hfile Hvalid Hfail.
  pose proof (handle_tables c event) as Ht.
  rewrite Hocc, addMacroAsSymbol_recorded, Hfail in Ht by assumption.
  unfold tables in Ht. injection Ht as Hs Hl. split; [|exact Hl].
  rewrite Hs. now destruct (m_symbolEntries c !! toSymbolIndex info).
Qed.

(** C10: an event changes the symbol table or the occurrence log only when
    the macro-info chain resolves, the token's location is a file location
    and the resolved file id is valid; when one of these fails both tables
    are left as they were.  The four conditional-test and expansion
    callbacks record their used-define candidate all the same: its name is
    in the confirmed set when the definition has macro info, in the
    tentative set otherwise. *)
Theorem unrecordable_occurrence_skipped `{FE : FrontEnd}
    (c : Collector) (event : Event) (tok : Token)
    (info : option MacroInfo) (ty : SymbolType.t) :
  eventOccurrence event = Some (tok, info, ty) ->
  (~ recordable tok info -> tables (handle c event) = tables c) /\
  (tables (handle c event) <> tables c -> recordable tok info) /\
  (recordable tok info ->
   length (m_sourceLocationEntries (handle c event))
   = S (length (m_sourceLocationEntries c))) /\
  Forall
    (fun callback : Token -> MacroDefinition -> Collector -> Collector =>
       forall def,
         m_usedDefines (callback tok def c)
           = m_usedDefines (addUsedDefine tok def c) /\
         m_maybeUsedDefines (callback tok def c)
           = m_maybeUsedDefines (addUsedDefine tok def c) /\
         In (getName tok)
            (map defineName
               (match getMacroInfo def with
                | Some _ => m_usedDefines (callback tok def c)
                | None => m_maybeUsedDefines (callback tok def c)
                end)))
    [Ifndef; Ifdef; Defined; MacroExpands].
Proof.
  intros Hocc.
  assert (Hskip : ~ recordable tok info -> tables (handle c event) = tables c).
  { intros Hn. rewrite handle_tables, Hocc.
    now rewrite addMacroAsSymbol_skipped. }
  split; [exact Hskip|]. split; [|split].
  - intros Hchanged.
    destruct info as [info|].
    + destruct (isFileID (getLocation tok)) eqn:Hfile.
      * destruct (isValid (locationFilePathId (getLocation tok))) eqn:Hvalid.
        -- unfold recordable. rewrite Hfile, Hvalid. eauto.
        -- exfalso. apply Hchanged, Hskip. unfold recordable.
           rewrite Hvalid. intros (_ & _ & ?). discriminate.
      * exfalso. apply Hchanged, Hskip. unfold recordable.
        rewrite Hfile. intros (_ & ? & _). discriminate.
    + exfalso. apply Hchanged, Hskip. intros ([? ?] & _). discriminate.
  - intros ([i ->] & Hfile & Hvalid).
    pose proof (handle_tables c event) as Ht.
    rewrite Hocc, addMacroAsSymbol_recorded in Ht by assumption.
    unfold tables in Ht. injection Ht as _ ->.
    rewrite length_app. simpl. lia.
  - assert (Hcallback : forall def,
      let c' := addMacroAsSymbol tok
                  (firstMacroInfo (getLocalDirective def))
                  SymbolType.MacroUsage (addUsedDefine tok def c) in
      m_usedDefines c' = m_usedDefines (addUsedDefine tok def c) /\
      m_maybeUsedDefines c' = m_maybeUsedDefines (addUsedDefine tok def c) /\
      In (getName tok)
         (map defineName
            (match getMacroInfo def with
             | Some _ => m_usedDefines c'
             | None => m_maybeUsedDefines c'
             end))).
    { intros def c'.
      pose proof (addMacroAsSymbol_frame tok
        (firstMacroInfo (getLocalDirective def)) SymbolType.MacroUsage
        (addUsedDefine tok def c)) as (Hu & Hm & _).
      fold c' in Hu, Hm. rewrite Hu, Hm.
      split; [reflexivity|]. split; [reflexivity|].
      unfold addUsedDefine.
      destruct (getMacroInfo def); simpl;
        apply (addUsedDefineTo_has_name
                 {| defineName := getName tok;
                    filePathId := locationFilePathId (getLocation tok) |}). }
    repeat (apply List.Forall_cons; [exact Hcallback|]). apply List.Forall_nil.
Qed.

(** ** The origin of a macro *)

Lemma MacroDirective_ind (P : MacroDirective -> Prop) :
  (forall info, P (Directive info None)) ->
  (forall info previous, P previous -> P (Directive info (Some previous))) ->
  forall d, P d.
Proof.
  intros Hfirst Hnext. fix IH 1. intros [info [previous|]].
  - apply Hnext, IH.
  - apply Hfirst.
Qed.

Lemma chain_head (d : MacroDirective) : exists l, chain d = d :: l.
Proof. destruct d as [info [previous|]]; simpl; eauto. Qed.

Lemma last_cons_default {A : Type} (x : A) (l : list A) (d1 d2 : A) :
  List.last (x :: l) d1 = List.last (x :: l) d2.
Proof.
  revert x. induction l as [|y l IH]; intros x; [reflexivity|].
  change (List.last (y :: l) d1 = List.last (y :: l) d2). apply IH.
Qed.

Lemma firstDirective_last (d : MacroDirective) :
  firstDirective d = List.last (chain d) d.
Proof.
  induction d as [info|info previous IH] using MacroDirective_ind;
    [reflexivity|].
  simpl firstDirective. rewrite IH.
  change (chain (Directive info (Some previous)))
    with (Directive info (Some previous) :: chain previous).
  destruct (chain_head previous) as [l ->].
  change (List.last (previous :: l) previous
          = List.last (previous :: l) (Directive info (Some previous))).
  apply last_cons_default.
Qed.

Lemma firstDirective_chain (d d' : MacroDirective) :
  In d' (chain d) -> firstDirective d' = firstDirective d.
Proof.
  induction d as [info|info previous IH] using MacroDirective_ind.
  - simpl. intros [<- | []]. reflexivity.
  - change (chain (Directive info (Some previous)))
      with (Directive info (Some previous) :: chain previous).
    intros [<- | Hin]; [reflexivity|]. now apply IH.
Qed.

Lemma firstDirective_first (d : MacroDirective) :
  getPrevious (firstDirective d) = None /\ In (firstDirective d) (chain d).
Proof.
  induction d as [info|info previous IH] using MacroDirective_ind.
  - simpl. auto.
  - change (chain (Directive info (Some previous)))
      with (Directive info (Some previous) :: chain previous).
    simpl firstDirective. destruct IH. split; [assumption | now right].
Qed.

Lemma eventDirective_occurrence (event : Event) (d : MacroDirective) :
  eventDirective event = Some d ->
  exists tok ty, eventOccurrence event = Some (tok, firstMacroInfo (Some d), ty).
Proof.
  destruct event as [file| |tok def|tok def|tok def|tok dir|tok def|tok def];
    simpl; try discriminate; intros ->; eauto.
Qed.

(** C6: [firstMacroInfo] of a null directive is nothing; of a directive it
    is the macro info attached to the earliest directive of its chain, the
    one with no previous directive; every directive of one chain yields the
    same result, so that whichever of them is current when a definition,
    usage or undefinition is reported, the occurrence the event appends is
    keyed by the identity of that one macro info. *)
Theorem firstMacroInfo_earliest `{FE : FrontEnd}
    (d d' : MacroDirective) (info : MacroInfo) (c : Collector)
    (event : Event) :
  firstMacroInfo None = None /\
  firstMacroInfo (Some d) = directiveMacroInfo (List.last (chain d) d) /\
  getPrevious (List.last (chain d) d) = None /\
  (In d' (chain d) ->
   firstMacroInfo (Some d') = firstMacroInfo (Some d) /\
   (eventDirective event = Some d' ->
    firstMacroInfo (Some d) = Some info ->
    exists tok ty,
      eventOccurrence event = Some (tok, Some info, ty) /\
      newOccurrences c event =
      (if isFileID (getLocation tok) &&
          isValid (locationFilePathId (getLocation tok))
       then [occurrenceOf tok info ty] else []) /\
      Forall (fun o => symbolId o = toSymbolIndex info)
        (newOccurrences c event))).
Proof.
  split; [reflexivity|].
  split; [simpl; now rewrite firstDirective_last|].
  split; [rewrite <- firstDirective_last; apply firstDirective_first|].
  intros Hin.
  assert (Hsame : firstMacroInfo (Some d') = firstMacroInfo (Some d)).
  { simpl. now rewrite (firstDirective_chain d d' Hin). }
  split; [exact Hsame|].
  intros Hdir Hinfo.
  destruct (eventDirective_occurrence event d' Hdir) as (tok & ty & Hocc).
  rewrite Hsame, Hinfo in Hocc.
  exists tok, ty. split; [exact Hocc|].
  assert (Hnew : newOccurrences c event =
                 if isFileID (getLocation tok) &&
                    isValid (locationFilePathId (getLocation tok))
                 then [occurrenceOf tok info ty] else []).
  { unfold newOccurrences.
    change (m_sourceLocationEntries (handle c event))
      with (snd (tables (handle c event))).
    rewrite handle_tables, Hocc.
    destruct (isFileID (getLocation tok)) eqn:Hfile.
    - destruct (isValid (locationFilePathId (getLocation tok))) eqn:Hvalid.
      + rewrite addMacroAsSymbol_recorded by assumption. simpl.
        now rewrite drop_app_length.
      + rewrite addMacroAsSymbol_skipped.
        * simpl. apply drop_all.
        * unfold recordable. rewrite Hvalid. intros (_ & _ & ?). discriminate.
    - rewrite addMacroAsSymbol_skipped.
      + simpl. apply drop_all.
      + unfold recordable. rewrite Hfile. intros (_ & ? & _). discriminate. }
  split; [exact Hnew|].
  rewrite Hnew.
  destruct (isFileID (getLocation tok) &&
            isValid (locationFilePathId (getLocation tok)));
    repeat constructor.
Qed.

(** ** The included files *)

Section IncludedFiles.
Context `{FE : FrontEnd}.

(** A file id that is not yet in the vector is appended at its end. *)
Lemma addSourceFile_sourceFiles file c :
  m_sourceFiles (addSourceFile file c) =
  if bool_decide (cacheFilePathId file ∈ m_sourceFiles c)
  then m_sourceFiles c
  else m_sourceFiles c ++ [cacheFilePathId file].
Proof.
  unfold addSourceFile.
  destruct (m_sourceFiles c !! find Z.eqb (m_sourceFiles c)
                                (cacheFilePathId file)) as [x|] eqn:Hfound.
  - pose proof (find_lookup _ _ _ _ Hfound) as Heq.
    rewrite Heq. simpl. apply Z.eqb_eq in Heq. subst x.
    rewrite bool_decide_eq_true_2; [reflexivity|].
    eapply list_elem_of_lookup_2. exact Hfound.
  - rewrite bool_decide_eq_false_2.
    + simpl. unfold vector_insert. rewrite (find_end _ _ _ Hfound).
      now rewrite firstn_all, skipn_all.
    + rewrite list_elem_of_In.
      apply (find_not_In Z.eqb); [|exact Hfound].
      intros x. apply Z.eqb_eq.
Qed.

Lemma addSourceFile_NoDup file c :
  NoDup (m_sourceFiles c) -> NoDup (m_sourceFiles (addSourceFile file c)).
Proof.
  intros Hnd. rewrite addSourceFile_sourceFiles.
  case_bool_decide as Hin; [exact Hnd|].
  apply NoDup_app. split; [exact Hnd|]. split; [|apply NoDup_singleton].
  intros x Hx Hx'. apply list_elem_of_singleton in Hx'. subst x.
  exact (Hin Hx).
Qed.

Lemma addSourceFile_In file c :
  In (cacheFilePathId file) (m_sourceFiles (addSourceFile file c)).
Proof.
  rewrite addSourceFile_sourceFiles.
  case_bool_decide as Hin; [now apply list_elem_of_In|].
  apply in_or_app. right. now left.
Qed.

Lemma handle_sourceFiles c event :
  m_sourceFiles (handle c event) = m_sourceFiles c \/
  exists file, m_sourceFiles (handle c event)
               = m_sourceFiles (addSourceFile file c).
Proof.
  destruct event as [file| |tok def|tok def|tok def|tok dir|tok def|tok def];
    simpl.
  - unfold InclusionDirective. destruct file as [f|]; [|now left].
    destruct (negb (m_skipInclude c)); [right; now exists f | now left].
  - now left.
  - left. unfold Ifndef.
    pose proof (addMacroAsSymbol_frame tok
      (firstMacroInfo (getLocalDirective def)) SymbolType.MacroUsage
      (addUsedDefine tok def c)) as (_ & _ & -> & _).
    apply addUsedDefine_frame.
  - left. unfold Ifdef.
    pose proof (addMacroAsSymbol_frame tok
      (firstMacroInfo (getLocalDirective def)) SymbolType.MacroUsage
      (addUsedDefine tok def c)) as (_ & _ & -> & _).
    apply addUsedDefine_frame.
  - left. unfold Defined.
    pose proof (addMacroAsSymbol_frame tok
      (firstMacroInfo (getLocalDirective def)) SymbolType.MacroUsage
      (addUsedDefine tok def c)) as (_ & _ & -> & _).
    apply addUsedDefine_frame.
  - left. apply addMacroAsSymbol_frame.
  - left. apply addMacroAsSymbol_frame.
  - left. unfold MacroExpands.
    pose proof (addMacroAsSymbol_frame tok
      (firstMacroInfo (getLocalDirective def)) SymbolType.MacroUsage
      (addUsedDefine tok def c)) as (_ & _ & -> & _).
    apply addUsedDefine_frame.
Qed.

(** Whatever the events, no file id is in the vector twice. *)
Lemma run_sourceFiles_NoDup events c :
  NoDup (m_sourceFiles c) -> NoDup (m_sourceFiles (run events c)).
Proof.
  revert c. induction events as [|e events IH]; intros c Hc; [exact Hc|].
  simpl. apply IH.
  destruct (handle_sourceFiles c e) as [-> | [file ->]]; [exact Hc|].
  now apply addSourceFile_NoDup.
Qed.

Lemma pass_sourceFiles_NoDup events : NoDup (m_sourceFiles (pass events)).
Proof.
  unfold pass.
  pose proof (EndOfMainFile_frame (run events initial)) as (_ & _ & ->).
  apply run_sourceFiles_NoDup. constructor.
Qed.
End IncludedFiles.

(** ** The claims about the included files *)

(** C2, as the code has it: a failed resolution followed at once by an
    inclusion callback, successful or not, leaves the set of included files
    as it was, so that the recovered file is not recorded; the callback
    clears the skip flag, and the next successful inclusion is recorded
    again. *)
Theorem FileNotFound_suppresses_next_inclusion `{FE : FrontEnd}
    (c : Collector) (file : option FileEntry) (next : FileEntry) :
  let c' := InclusionDirective file (fst (FileNotFound c)) in
  snd (FileNotFound c) = true /\
  m_sourceFiles c' = m_sourceFiles c /\
  m_skipInclude c' = false /\
  In (cacheFilePathId next)
     (m_sourceFiles (InclusionDirective (Some next) c')).
Proof.
  cbv zeta. split; [reflexivity|].
  assert (Hskip : m_skipInclude (InclusionDirective file (fst (FileNotFound c)))
                  = false) by reflexivity.
  split; [|split; [exact Hskip|]].
  - unfold InclusionDirective, FileNotFound. simpl. now destruct file.
  - unfold InclusionDirective at 1. rewrite Hskip. simpl.
    apply addSourceFile_In.
Qed.

(** C4: the files [bb.h] (id 4) and [a.h] (id 3), included in this order,
    [bb.h] a second time, end as the vector [4; 3]: each id once, in the
    order of first inclusion and not in ascending order. *)
Theorem addSourceFile_keeps_inclusion_order :
  let events :=
    [OnInclusionDirective (Some "bb.h"%string);
     OnInclusionDirective (Some "a.h"%string);
     OnInclusionDirective (Some "bb.h"%string)] in
  let files := m_sourceFiles (pass (FE := sampleFrontEnd) events) in
  files = [4; 3] /\ NoDup files /\ ~ Sorted Z.le files.
Proof.
  cbv zeta.
  assert (Hfiles :
    m_sourceFiles
      (pass (FE := sampleFrontEnd)
         [OnInclusionDirective (Some "bb.h"%string);
          OnInclusionDirective (Some "a.h"%string);
          OnInclusionDirective (Some "bb.h"%string)]) = [4; 3])
    by (vm_compute; reflexivity).
  split; [exact Hfiles|]. split; [apply pass_sourceFiles_NoDup|].
  rewrite Hfiles. intros Hs.
  apply Sorted_inv in Hs as [_ Hhd]. apply HdRel_inv in Hhd. lia.
Qed.

(** ** Concrete runs *)

(** C2, the claim as stated fails: after a failed resolution and the
    successful inclusion of the recovered file, the set has no entry. *)
Lemma recovered_inclusion_not_recorded :
  let c :=
    run (FE := sampleFrontEnd)
      [OnFileNotFound; OnInclusionDirective (Some "recovered.h"%string)]
      initial in
  m_sourceFiles c = [] /\
  ~ In (cacheFilePathId (FrontEnd := sampleFrontEnd) "recovered.h")
       (m_sourceFiles c) /\
  count_occ Z.eq_dec (m_sourceFiles c)
    (cacheFilePathId (FrontEnd := sampleFrontEnd) "recovered.h") <> 1%nat.
Proof.
  cbv zeta. split; [reflexivity|]. split.
  - intros H. exact H.
  - simpl. discriminate.
Qed.

(** C3, the claim as stated fails: generation fails at the definition of
    [A] (an odd location), the table has no entry for [A] then, and the
    later [#ifdef A] generates the USR and inserts the entry. *)
Lemma later_occurrence_inserts_entry :
  let first := OnMacroDefined (tokenA 267) (Some directiveA) in
  let later := OnIfdef (tokenA 286) definedA in
  generateUSR (FrontEnd := sampleFrontEnd) "A" 267 = None /\
  m_symbolEntries (run (FE := sampleFrontEnd) [first] initial)
    !! toSymbolIndex infoA = None /\
  m_symbolEntries (run (FE := sampleFrontEnd) [first; later] initial)
    !! toSymbolIndex infoA = Some (mkSymbolEntry "c:@macro@A" "A") /\
  map symbolId
    (m_sourceLocationEntries
       (run (FE := sampleFrontEnd) [first; later] initial))
  = [toSymbolIndex infoA; toSymbolIndex infoA].
Proof. cbv zeta. repeat split; vm_compute; reflexivity. Qed.

(** The retry of C3 on the run above. *)
Lemma absent_entry_retries_generation_witness :
  let c :=
    run (FE := sampleFrontEnd)
      [OnMacroDefined (tokenA 267) (Some directiveA)] initial in
  let event := OnIfdef (tokenA 286) definedA in
  m_symbolEntries c !! toSymbolIndex infoA = None /\
  m_symbolEntries (handle (FE := sampleFrontEnd) c event)
  = <[1 := mkSymbolEntry "c:@macro@A" "A"]> (m_symbolEntries c).
Proof.
  cbv zeta. split; [reflexivity|].
  exact (@absent_entry_retries_generation sampleFrontEnd
           (run (FE := sampleFrontEnd)
              [OnMacroDefined (tokenA 267) (Some directiveA)] initial)
           (OnIfdef (tokenA 286) definedA) (tokenA 286) infoA
           SymbolType.MacroUsage eq_refl eq_refl eq_refl eq_refl).
Defined.

(** C5 on a tentative set of a header guard and an unknown name. *)
Lemma filterOutHeaderGuards_removes_exactly_guards_witness :
  let c :=
    run (FE := sampleFrontEnd)
      [OnIfndef (mkToken 266 "FOO_H") undefinedA;
       OnIfdef (mkToken 276 "UNKNOWN") undefinedA] initial in
  let unknown := mkUsedDefine "UNKNOWN" 0 in
  In unknown (m_maybeUsedDefines c) /\
  In unknown
     (m_maybeUsedDefines (filterOutHeaderGuards (FE := sampleFrontEnd) c)).
Proof.
  cbv zeta.
  assert (Hin : In (mkUsedDefine "UNKNOWN" 0)
                  (m_maybeUsedDefines
                     (run (FE := sampleFrontEnd)
                        [OnIfndef (mkToken 266 "FOO_H") undefinedA;
                         OnIfdef (mkToken 276 "UNKNOWN") undefinedA] initial))).
  { right. left. reflexivity. }
  split; [exact Hin|].
  destruct (@filterOutHeaderGuards_removes_exactly_guards sampleFrontEnd
              (run (FE := sampleFrontEnd)
                 [OnIfndef (mkToken 266 "FOO_H") undefinedA;
                  OnIfdef (mkToken 276 "UNKNOWN") undefinedA] initial))
    as (_ & _ & _ & Hkeep & _).
  exact (Hkeep _ Hin eq_refl).
Defined.

(** C6 on the chain of a redefined [A]: an undefinition reported with the
    later directive is keyed by the first macro info. *)
Lemma firstMacroInfo_earliest_witness :
  let event :=
    OnMacroUndefined (tokenA 300)
      (mkMacroDefinition (Some (mkMacroInfo 2 false)) (Some directiveA2)) in
  In directiveA2 (chain directiveA2) /\
  firstMacroInfo (Some directiveA2) = Some infoA /\
  exists tok ty,
    eventOccurrence event = Some (tok, Some infoA, ty) /\
    newOccurrences (FE := sampleFrontEnd) initial event =
    (if isFileID (getLocation tok) &&
        isValid (FrontEnd := sampleFrontEnd)
          (locationFilePathId (FrontEnd := sampleFrontEnd) (getLocation tok))
     then [occurrenceOf (FE := sampleFrontEnd) tok infoA ty] else []) /\
    Forall (fun o => symbolId o = toSymbolIndex infoA)
      (newOccurrences (FE := sampleFrontEnd) initial event).
Proof.
  cbv zeta.
  assert (Hin : In directiveA2 (chain directiveA2)) by (left; reflexivity).
  split; [exact Hin|]. split; [reflexivity|].
  destruct (@firstMacroInfo_earliest sampleFrontEnd directiveA2 directiveA2
              infoA initial
              (OnMacroUndefined (tokenA 300)
                 (mkMacroDefinition (Some (mkMacroInfo 2 false))
                    (Some directiveA2))))
    as (_ & _ & _ & Hchain).
  destruct (Hchain Hin) as [_ Hevent].
  exact (Hevent eq_refl eq_refl).
Defined.

(** C7 on the expansions of [MYLIB_EXPORT] and [MYLIB_FEATURE]. *)
Lemma EndOfMainFile_filters_exports_witness :
  let c :=
    run (FE := sampleFrontEnd)
      [OnMacroExpands (mkToken 266 "MYLIB_EXPORT") (definedOnce 7);
       OnMacroExpands (mkToken 276 "MYLIB_FEATURE") (definedOnce 8)]
      initial in
  let feature := mkUsedDefine "MYLIB_FEATURE" 0 in
  ~ hasSubstring (defineName feature) "EXPORT" /\
  In feature (m_usedDefines c) /\
  In feature (m_usedDefines (EndOfMainFile (FE := sampleFrontEnd) c)).
Proof.
  cbv zeta.
  assert (Hne : ~ hasSubstring (defineName (mkUsedDefine "MYLIB_FEATURE" 0))
                    "EXPORT") by (apply contains_false; reflexivity).
  assert (Hin : In (mkUsedDefine "MYLIB_FEATURE" 0)
                  (m_usedDefines
                     (run (FE := sampleFrontEnd)
                        [OnMacroExpands (mkToken 266 "MYLIB_EXPORT")
                           (definedOnce 7);
                         OnMacroExpands (mkToken 276 "MYLIB_FEATURE")
                           (definedOnce 8)] initial))).
  { right. left. reflexivity. }
  split; [exact Hne|]. split; [exact Hin|].
  destruct (@EndOfMainFile_filters_exports sampleFrontEnd
              (run (FE := sampleFrontEnd)
                 [OnMacroExpands (mkToken 266 "MYLIB_EXPORT") (definedOnce 7);
                  OnMacroExpands (mkToken 276 "MYLIB_FEATURE") (definedOnce 8)]
                 initial))
    as (_ & Hkept & _).
  exact (Hkept _ Hne (or_introl Hin)).
Defined.

(** C8 on a table that holds [A]: a usage and a redefinition of [A] leave
    its entry as it is. *)
Lemma symbolEntries_one_row_per_identity_witness :
  let c :=
    run (FE := sampleFrontEnd)
      [OnMacroDefined (tokenA 266) (Some directiveA)] initial in
  let events :=
    [OnIfdef (tokenA 286) definedA;
     OnMacroDefined (mkToken 300 "A") (Some directiveA2)] in
  let entry := mkSymbolEntry "c:@macro@A" "A" in
  m_symbolEntries c !! 1 = Some entry /\
  m_symbolEntries (run (FE := sampleFrontEnd) events c) !! 1 = Some entry /\
  length (List.filter (fun row => fst row =? 1)
            (map_to_list
               (m_symbolEntries (run (FE := sampleFrontEnd) events c))))
  = 1%nat.
Proof.
  cbv zeta.
  assert (Hentry :
    m_symbolEntries
      (run (FE := sampleFrontEnd)
         [OnMacroDefined (tokenA 266) (Some directiveA)] initial) !! 1
    = Some (mkSymbolEntry "c:@macro@A" "A")) by reflexivity.
  split; [exact Hentry|].
  destruct (@symbolEntries_one_row_per_identity sampleFrontEnd
              [OnIfdef (tokenA 286) definedA;
               OnMacroDefined (mkToken 300 "A") (Some directiveA2)]
              (run (FE := sampleFrontEnd)
                 [OnMacroDefined (tokenA 266) (Some directiveA)] initial)
              1 (mkSymbolEntry "c:@macro@A" "A"))
    as [_ Hkept].
  destruct (Hkept Hentry) as (_ & Hrun & _ & Hone).
  split; [exact Hrun | exact Hone].
Defined.

(** C9 on the definition of [A] at a location where generation fails. *)
Lemma failed_generation_keeps_occurrence_witness :
  let event := OnMacroDefined (tokenA 267) (Some directiveA) in
  generateUSR (FrontEnd := sampleFrontEnd) "A" 267 = None /\
  m_symbolEntries (handle (FE := sampleFrontEnd) initial event) = ∅ /\
  m_sourceLocationEntries (handle (FE := sampleFrontEnd) initial event)
  = [mkSourceLocationEntry 1 0 (mkLineColumn 11 1)
       SymbolType.MacroDefinition].
Proof.
  cbv zeta. split; [reflexivity|].
  exact (@failed_generation_keeps_occurrence sampleFrontEnd initial
           (OnMacroDefined (tokenA 267) (Some directiveA)) (tokenA 267) infoA
           SymbolType.MacroDefinition eq_refl eq_refl eq_refl eq_refl).
Defined.

(** C10 on [#ifdef A] whose token lies in a macro expansion: no
    occurrence, no entry, and [A] among the confirmed used defines. *)
Lemma unrecordable_occurrence_skipped_witness :
  let tok := tokenA (MacroIDBit + 5) in
  let event := OnIfdef tok definedA in
  isFileID (getLocation tok) = false /\
  tables (handle (FE := sampleFrontEnd) initial event) = tables initial /\
  In "A"%string
     (map defineName (m_usedDefines (handle (FE := sampleFrontEnd) initial event))).
Proof.
  cbv zeta. split; [reflexivity|].
  destruct (@unrecordable_occurrence_skipped sampleFrontEnd initial
              (OnIfdef (tokenA (MacroIDBit + 5)) definedA)
              (tokenA (MacroIDBit + 5)) (Some infoA) SymbolType.MacroUsage
              eq_refl)
    as (Hskip & _ & _ & Hused).
  split.
  - apply Hskip. intros (_ & Hfile & _). discriminate Hfile.
  - apply List.Forall_cons_iff in Hused as [_ Hused].
    apply List.Forall_cons_iff in Hused as [Hifdef _].
    destruct (Hifdef definedA) as (_ & _ & Hname). exact Hname.
Defined.

(** ** Further properties of the used-define sets *)

Lemma strictlySorted_NoDup (l : list UsedDefine) :
  strictlySortedByName l -> NoDup (map defineName l).
Proof.
  unfold strictlySortedByName.
  induction 1 as [|n ns Hs IH Hn]; constructor; [|exact IH].
  intros Hin. apply list_elem_of_In in Hin.
  rewrite List.Forall_forall in Hn. exact (name_lt_irrefl n (Hn n Hin)).
Qed.

Lemma addUsedDefineTo_names (u : UsedDefine) (l : list UsedDefine) (n : string) :
  In n (map defineName (addUsedDefineTo u l)) <->
  n = defineName u \/ In n (map defineName l).
Proof.
  split.
  - intros Hn. apply in_map_iff in Hn as (x & <- & Hx).
    apply addUsedDefineTo_In in Hx as [-> | Hx]; [now left|].
    right. now apply in_map.
  - intros [-> | Hn]; [apply addUsedDefineTo_has_name|].
    apply in_map_iff in Hn as (x & <- & Hx).
    apply in_map. now apply addUsedDefineTo_keeps.
Qed.

Lemma addUsedDefineTo_present (u : UsedDefine) (l : list UsedDefine) :
  strictlySortedByName l ->
  In (defineName u) (map defineName l) -> addUsedDefineTo u l = l.
Proof.
  unfold strictlySortedByName.
  induction l as [|y l IH]; intros Hs Hin; [destruct Hin|].
  rewrite addUsedDefineTo_cons. simpl in Hs, Hin.
  apply StronglySorted_inv in Hs as [Hl Hy].
  rewrite List.Forall_forall in Hy.
  destruct (UsedDefine_lt y u) eqn:Elt.
  - destruct Hin as [Heq | Hin].
    + exfalso. unfold UsedDefine_lt in Elt. rewrite Heq in Elt.
      exact (name_lt_irrefl _ Elt).
    + f_equal. now apply IH.
  - destruct (UsedDefine_neq y u) eqn:Ene; [|reflexivity].
    exfalso. apply UsedDefine_neq_true in Ene.
    destruct Hin as [Heq | Hin]; [exact (Ene Heq)|].
    apply UsedDefine_lt_false, name_le_iff in Elt.
    destruct Elt as [Elt | Elt]; [|exact (Ene (eq_sym Elt))].
    apply (name_lt_irrefl (defineName u)).
    eapply name_lt_trans; [exact Elt|]. now apply Hy.
Qed.

Lemma addUsedDefineTo_absent (u : UsedDefine) (l : list UsedDefine) :
  ~ In (defineName u) (map defineName l) ->
  Permutation (addUsedDefineTo u l) (u :: l).
Proof.
  induction l as [|y l IH]; intros Hnin; [reflexivity|].
  rewrite addUsedDefineTo_cons. simpl in Hnin.
  destruct (UsedDefine_lt y u).
  - rewrite IH by tauto. apply perm_swap.
  - destruct (UsedDefine_neq y u) eqn:Ene; [reflexivity|].
    apply UsedDefine_neq_false in Ene. tauto.
Qed.

(** X1: during collection both used-define sets stay strictly sorted by
    name, whatever the events; no name is twice in one set. *)
Theorem collection_keeps_sets_strictly_sorted `{FE : FrontEnd}
    (events : list Event) :
  let c := run events initial in
  strictlySortedByName (m_usedDefines c) /\
  strictlySortedByName (m_maybeUsedDefines c) /\
  NoDup (map defineName (m_usedDefines c)) /\
  NoDup (map defineName (m_maybeUsedDefines c)).
Proof.
  cbv zeta.
  destruct (run_setsSorted events initial initial_setsSorted) as [Hu Hm].
  repeat split; auto using strictlySorted_NoDup.
Qed.

(** X2: on a set that is strictly sorted by name, the static
    [addUsedDefine] leaves the set as it is when the name is already there
    (the entry recorded first keeps its location), and otherwise adds the
    one entry and nothing else; in both cases the result is strictly sorted
    and adding the same entry again changes nothing. *)
Theorem addUsedDefineTo_first_location_wins (u : UsedDefine)
    (l : list UsedDefine) :
  strictlySortedByName l ->
  (In (defineName u) (map defineName l) -> addUsedDefineTo u l = l) /\
  (~ In (defineName u) (map defineName l) ->
   Permutation (addUsedDefineTo u l) (u :: l)) /\
  strictlySortedByName (addUsedDefineTo u l) /\
  addUsedDefineTo u (addUsedDefineTo u l) = addUsedDefineTo u l.
Proof.
  intros Hs.
  split; [now apply addUsedDefineTo_present|].
  split; [apply addUsedDefineTo_absent|].
  split; [now apply addUsedDefineTo_strictlySorted|].
  apply addUsedDefineTo_present.
  - now apply addUsedDefineTo_strictlySorted.
  - apply addUsedDefineTo_has_name.
Qed.

Lemma addUsedDefineTo_first_location_wins_witness :
  let l := [mkUsedDefine "A" 1; mkUsedDefine "C" 1] in
  strictlySortedByName l /\
  addUsedDefineTo (mkUsedDefine "C" 7) l = l /\
  Permutation (addUsedDefineTo (mkUsedDefine "B" 7) l)
    (mkUsedDefine "B" 7 :: l).
Proof.
  cbv zeta.
  assert (Hs : strictlySortedByName [mkUsedDefine "A" 1; mkUsedDefine "C" 1]).
  { unfold strictlySortedByName. simpl.
    repeat constructor. }
  split; [exact Hs|].
  destruct (addUsedDefineTo_first_location_wins (mkUsedDefine "C" 7) _ Hs)
    as (Hpresent & _).
  destruct (addUsedDefineTo_first_location_wins (mkUsedDefine "B" 7) _ Hs)
    as (_ & Habsent & _).
  split.
  - apply Hpresent. right. left. reflexivity.
  - apply Habsent. simpl. intros [H | [H | []]]; discriminate H.
Defined.

Lemma handle_usedDefines_eq `{FE : FrontEnd} (c : Collector) (event : Event) :
  m_usedDefines (handle c event) =
    match usedDefineEvent event with
    | Some (tok, def) => m_usedDefines (addUsedDefine tok def c)
    | None => m_usedDefines c
    end /\
  m_maybeUsedDefines (handle c event) =
    match usedDefineEvent event with
    | Some (tok, def) => m_maybeUsedDefines (addUsedDefine tok def c)
    | None => m_maybeUsedDefines c
    end.
Proof.
  destruct event as [file| |tok def|tok def|tok def|tok dir|tok def|tok def];
    simpl;
    try (pose proof (addMacroAsSymbol_frame tok
           (firstMacroInfo (getLocalDirective def)) SymbolType.MacroUsage
           (addUsedDefine tok def c)) as (Hu & Hm & _); now split).
  - pose proof (InclusionDirective_frame file c). tauto.
  - auto.
  - unfold MacroDefined.
    pose proof (addMacroAsSymbol_frame tok (firstMacroInfo dir)
      SymbolType.MacroDefinition c). tauto.
  - unfold MacroUndefined.
    pose proof (addMacroAsSymbol_frame tok
      (firstMacroInfo (getLocalDirective def))
      SymbolType.MacroUndefinition c). tauto.
Qed.

Lemma addUsedDefine_names `{FE : FrontEnd} tok def c (n : string) :
  (In n (map defineName (m_usedDefines (addUsedDefine tok def c))) <->
   In n (map defineName (m_usedDefines c)) \/
   (is_Some (getMacroInfo def) /\ getName tok = n)) /\
  (In n (map defineName (m_maybeUsedDefines (addUsedDefine tok def c))) <->
   In n (map defineName (m_maybeUsedDefines c)) \/
   (getMacroInfo def = None /\ getName tok = n)).
Proof.
  unfold addUsedDefine.
  destruct (getMacroInfo def) as [info|]; simpl;
    rewrite addUsedDefineTo_names; simpl; split; split;
    try (intros [<- | H]; [right; eauto | now left]);
    try (intros [H | [_ <-]]; [now right | now left]);
    try (intros H; now left);
    try (intros [H | [H _]]; [exact H | try discriminate H]).
  destruct H as [x Hx]. discriminate Hx.
Qed.

Lemma run_usedDefine_names `{FE : FrontEnd} (events : list Event)
    (c : Collector) (n : string) :
  (In n (map defineName (m_usedDefines (run events c))) <->
   In n (map defineName (m_usedDefines c)) \/
   exists event tok def,
     In event events /\ usedDefineEvent event = Some (tok, def) /\
     is_Some (getMacroInfo def) /\ getName tok = n) /\
  (In n (map defineName (m_maybeUsedDefines (run events c))) <->
   In n (map defineName (m_maybeUsedDefines c)) \/
   exists event tok def,
     In event events /\ usedDefineEvent event = Some (tok, def) /\
     getMacroInfo def = None /\ getName tok = n).
Proof.
  revert c. induction events as [|e events IH]; intros c.
  - simpl. split; split; try tauto;
      intros [H | (ev & _ & _ & [] & _)]; exact H.
  - simpl run. destruct (IH (handle c e)) as [IHu IHm].
    destruct (handle_usedDefines_eq c e) as [Hu Hm].
    rewrite IHu, IHm, Hu, Hm. clear IHu IHm Hu Hm.
    destruct (usedDefineEvent e) as [[tok def]|] eqn:He.
    + destruct (addUsedDefine_names tok def c n) as [-> ->].
      split; split.
      * intros [[H | [Hi Hn]] | (ev & t & d & Hin & Hev & Hi & Hn)].
        -- now left.
        -- right. exists e, tok, def. simpl. auto.
        -- right. exists ev, t, d. simpl. auto.
      * intros [H | (ev & t & d & [<- | Hin] & Hev & Hi & Hn)].
        -- left. now left.
        -- rewrite He in Hev. injection Hev as <- <-. left. right. auto.
        -- right. exists ev, t, d. auto.
      * intros [[H | [Hi Hn]] | (ev & t & d & Hin & Hev & Hi & Hn)].
        -- now left.
        -- right. exists e, tok, def. simpl. auto.
        -- right. exists ev, t, d. simpl. auto.
      * intros [H | (ev & t & d & [<- | Hin] & Hev & Hi & Hn)].
        -- left. now left.
        -- rewrite He in Hev. injection Hev as <- <-. left. right. auto.
        -- right. exists ev, t, d. auto.
    + split; split.
      * intros [H | (ev & t & d & Hin & Hev & Hi & Hn)]; [now left|].
        right. exists ev, t, d. simpl. auto.
      * intros [H | (ev & t & d & [<- | Hin] & Hev & Hi & Hn)].
        -- now left.
        -- rewrite He in Hev. discriminate Hev.
        -- right. exists ev, t, d. auto.
      * intros [H | (ev & t & d & Hin & Hev & Hi & Hn)]; [now left|].
        right. exists ev, t, d. simpl. auto.
      * intros [H | (ev & t & d & [<- | Hin] & Hev & Hi & Hn)].
        -- now left.
        -- rewrite He in Hev. discriminate Hev.
        -- right. exists ev, t, d. auto.
Qed.

(** X3: after any sequence of events the names of the confirmed set are
    exactly the names of the tokens of the conditional-test and expansion
    events whose definition had macro info, and the names of the tentative
    set exactly those of such events whose definition had none; definition
    and undefinition events contribute no name. *)
Theorem used_define_names_are_event_names `{FE : FrontEnd}
    (events : list Event) (n : string) :
  (In n (map defineName (m_usedDefines (run events initial))) <->
   exists event tok def,
     In event events /\ usedDefineEvent event = Some (tok, def) /\
     is_Some (getMacroInfo def) /\ getName tok = n) /\
  (In n (map defineName (m_maybeUsedDefines (run events initial))) <->
   exists event tok def,
     In event events /\ usedDefineEvent event = Some (tok, def) /\
     getMacroInfo def = None /\ getName tok = n).
Proof.
  destruct (run_usedDefine_names events initial n) as [Hu Hm].
  rewrite Hu, Hm. simpl. tauto.
Qed.

(** X4: whatever the events, the final used defines are in ascending
    order of name; they are strictly ascending, without a repeated name,
    when no name of the confirmed set is also the name of a tentative entry
    that passes the header-guard filter. *)
Theorem final_used_defines_ascending `{FE : FrontEnd} (events : list Event) :
  let c := run events initial in
  sortedByName (m_usedDefines (pass events)) /\
  ((forall u1 u2, In u1 (m_usedDefines c) -> In u2 (m_maybeUsedDefines c) ->
                  notHeaderGuard u2 = true ->
                  defineName u1 <> defineName u2) ->
   strictlySortedByName (m_usedDefines (pass events)) /\
   NoDup (map defineName (m_usedDefines (pass events)))).
Proof.
  cbv zeta. split; [apply pass_sortedByName|].
  intros Hdisjoint.
  assert (Hs : strictlySortedByName (m_usedDefines (pass events))).
  { apply EndOfMainFile_strictlySorted_disjoint; [|exact Hdisjoint].
    apply run_setsSorted, initial_setsSorted. }
  split; [exact Hs | now apply strictlySorted_NoDup].
Qed.

Lemma final_used_defines_ascending_witness :
  let events :=
    [OnIfdef (mkToken 266 "UNKNOWN") undefinedA;
     OnIfdef (tokenA 286) definedA] in
  map defineName (m_usedDefines (pass (FE := sampleFrontEnd) events))
    = ["A"%string; "UNKNOWN"%string] /\
  strictlySortedByName (m_usedDefines (pass (FE := sampleFrontEnd) events)).
Proof.
  cbv zeta. split; [vm_compute; reflexivity|].
  destruct (@final_used_defines_ascending sampleFrontEnd
              [OnIfdef (mkToken 266 "UNKNOWN") undefinedA;
               OnIfdef (tokenA 286) definedA]) as [_ Hstrict].
  apply Hstrict.
  intros u1 u2 [<- | []] [<- | []] _. discriminate.
Defined.

Lemma sorted_merge_sublist_l {A : Type} (less : A -> A -> bool)
    (l1 l2 : list A) : sublist l1 (sorted_merge less l1 l2).
Proof.
  revert l2. induction l1 as [|x1 l1 IH1]; intros l2.
  - apply sublist_nil_l.
  - induction l2 as [|x2 l2 IH2].
    + now rewrite sorted_merge_nil_r.
    + rewrite sorted_merge_cons. destruct (less x2 x1).
      * now apply sublist_cons.
      * apply sublist_skip, IH1.
Qed.

Lemma sorted_merge_sublist_r {A : Type} (less : A -> A -> bool)
    (l1 l2 : list A) : sublist l2 (sorted_merge less l1 l2).
Proof.
  revert l2. induction l1 as [|x1 l1 IH1]; intros l2.
  - destruct l2; reflexivity.
  - induction l2 as [|x2 l2 IH2].
    + apply sublist_nil_l.
    + rewrite sorted_merge_cons. destruct (less x2 x1).
      * apply sublist_skip, IH2.
      * apply sublist_cons, IH1.
Qed.

(** X5: [mergeUsedDefines] drops and invents nothing: the merged vector
    holds the entries of the confirmed and of the tentative set, each set
    in its former order, and the tentative set itself is left in place. *)
Theorem mergeUsedDefines_keeps_every_entry `{FE : FrontEnd} (c : Collector) :
  Permutation (m_usedDefines (mergeUsedDefines c))
    (m_usedDefines c ++ m_maybeUsedDefines c) /\
  length (m_usedDefines (mergeUsedDefines c))
    = (length (m_usedDefines c) + length (m_maybeUsedDefines c))%nat /\
  sublist (m_usedDefines c) (m_usedDefines (mergeUsedDefines c)) /\
  sublist (m_maybeUsedDefines c) (m_usedDefines (mergeUsedDefines c)) /\
  m_maybeUsedDefines (mergeUsedDefines c) = m_maybeUsedDefines c.
Proof.
  rewrite mergeUsedDefines_eq. simpl.
  pose proof (sorted_merge_Permutation UsedDefine_lt (m_usedDefines c)
                (m_maybeUsedDefines c)) as Hperm.
  split; [exact Hperm|].
  split; [rewrite (Permutation_length Hperm); apply length_app|].
  split; [apply sorted_merge_sublist_l|].
  split; [apply sorted_merge_sublist_r | reflexivity].
Qed.

Lemma filter_idempotent {A : Type} (p : A -> bool) (l : list A) :
  List.filter p (List.filter p l) = List.filter p l.
Proof.
  induction l as [|x l IH]; [reflexivity|].
  simpl. destruct (p x) eqn:E; [|exact IH].
  simpl. now rewrite E, IH.
Qed.

(** X6: finalization is made to run once.  A second [EndOfMainFile]
    merges the tentative set again: the used defines are then those of the
    first run together with, once more, every tentative entry that passes
    both filters; the tentative set itself is the same after the second run
    as after the first. *)
Theorem EndOfMainFile_twice_merges_again `{FE : FrontEnd} (c : Collector) :
  Permutation
    (m_usedDefines (EndOfMainFile (EndOfMainFile c)))
    (m_usedDefines (EndOfMainFile c) ++
     List.filter notExport
       (List.filter notHeaderGuard (m_maybeUsedDefines c))) /\
  m_maybeUsedDefines (EndOfMainFile (EndOfMainFile c))
    = m_maybeUsedDefines (EndOfMainFile c).
Proof.
  assert (Hmaybe : forall c', m_maybeUsedDefines (EndOfMainFile c')
                   = List.filter notHeaderGuard (m_maybeUsedDefines c')).
  { intros c'. unfold EndOfMainFile.
    now rewrite filterOutExports_eq, mergeUsedDefines_eq,
      filterOutHeaderGuards_eq. }
  split.
  - rewrite (EndOfMainFile_usedDefines (EndOfMainFile c)), (Hmaybe c).
    rewrite filter_idempotent.
    rewrite (filter_Permutation_bool notExport _ _
               (sorted_merge_Permutation UsedDefine_lt _ _)).
    rewrite List.filter_app. apply Permutation_app; [|reflexivity].
    rewrite EndOfMainFile_usedDefines. now rewrite filter_idempotent.
  - rewrite (Hmaybe (EndOfMainFile c)), (Hmaybe c).
    apply filter_idempotent.
Qed.

Lemma sorted_merge_head_r (x2 : UsedDefine) (l1 l2 : list UsedDefine) :
  (forall y, In y l1 -> UsedDefine_lt x2 y = true) ->
  sorted_merge UsedDefine_lt l1 (x2 :: l2)
  = x2 :: sorted_merge UsedDefine_lt l1 l2.
Proof.
  intros Hsmall. destruct l1 as [|y l1]; [now destruct l2|].
  rewrite sorted_merge_cons. now rewrite Hsmall by (now left).
Qed.

Lemma sorted_merge_head_l (x1 : UsedDefine) (l1 l2 : list UsedDefine) :
  (forall y, In y l2 -> UsedDefine_lt y x1 = false) ->
  sorted_merge UsedDefine_lt (x1 :: l1) l2
  = x1 :: sorted_merge UsedDefine_lt l1 l2.
Proof.
  intros Hsmall. destruct l2 as [|y l2].
  - now rewrite !sorted_merge_nil_r.
  - rewrite sorted_merge_cons. now rewrite Hsmall by (now left).
Qed.

Lemma name_lt_le_trans (a b c : string) :
  name_lt a b -> name_le b c -> name_lt a c.
Proof.
  intros Hab Hbc. apply name_le_iff in Hbc as [Hbc | <-]; [|exact Hab].
  eapply name_lt_trans; eauto.
Qed.

Lemma sorted_merge_filter (p : UsedDefine -> bool) (l1 l2 : list UsedDefine) :
  sortedByName l1 -> sortedByName l2 ->
  List.filter p (sorted_merge UsedDefine_lt l1 l2)
  = sorted_merge UsedDefine_lt (List.filter p l1) (List.filter p l2).
Proof.
  unfold sortedByName. revert l2.
  induction l1 as [|x1 l1 IH1]; intros l2 H1 H2.
  - assert (Hnil : forall l, sorted_merge UsedDefine_lt [] l = l)
      by (intros []; reflexivity).
    simpl List.filter. now rewrite !Hnil.
  - induction l2 as [|x2 l2 IH2].
    + simpl List.filter at 3. now rewrite !sorted_merge_nil_r.
    + rewrite sorted_merge_cons.
      pose proof H1 as H1'. pose proof H2 as H2'.
      simpl in H1', H2'.
      apply StronglySorted_inv in H1' as [Hs1 Hx1].
      apply StronglySorted_inv in H2' as [Hs2 Hx2].
      rewrite List.Forall_forall in Hx1, Hx2.
      destruct (UsedDefine_lt x2 x1) eqn:E.
      * change (List.filter p (x2 :: l2))
          with (if p x2 then x2 :: List.filter p l2 else List.filter p l2).
        change (List.filter p (x2 :: sorted_merge UsedDefine_lt (x1 :: l1) l2))
          with (if p x2
                then x2 :: List.filter p
                             (sorted_merge UsedDefine_lt (x1 :: l1) l2)
                else List.filter p (sorted_merge UsedDefine_lt (x1 :: l1) l2)).
        rewrite (IH2 Hs2).
        destruct (p x2); [|reflexivity].
        rewrite sorted_merge_head_r; [reflexivity|].
        intros y Hy. apply filter_In in Hy as [Hy _].
        apply UsedDefine_lt_iff.
        destruct Hy as [<- | Hy]; [exact E|].
        apply name_lt_le_trans with (defineName x1); [exact E|].
        apply Hx1. now apply in_map.
      * change (List.filter p (x1 :: l1))
          with (if p x1 then x1 :: List.filter p l1 else List.filter p l1).
        change (List.filter p (x1 :: sorted_merge UsedDefine_lt l1 (x2 :: l2)))
          with (if p x1
                then x1 :: List.filter p
                             (sorted_merge UsedDefine_lt l1 (x2 :: l2))
                else List.filter p (sorted_merge UsedDefine_lt l1 (x2 :: l2))).
        rewrite (IH1 (x2 :: l2) Hs1 H2).
        destruct (p x1); [|reflexivity].
        rewrite sorted_merge_head_l; [reflexivity|].
        intros y Hy. apply filter_In in Hy as [Hy _].
        apply UsedDefine_lt_false.
        apply UsedDefine_lt_false in E.
        destruct Hy as [<- | Hy]; [exact E|].
        apply name_le_trans with (defineName x2); [exact E|].
        apply Hx2. now apply in_map.
Qed.

(** X7: the export filter can as well run before the merge: whatever the
    events, the final used defines are the merge of the confirmed set
    without its export names and of the tentative set without its header
    guards and export names. *)
Theorem export_filter_commutes_with_merge `{FE : FrontEnd}
    (events : list Event) :
  let c := run events initial in
  m_usedDefines (pass events) =
  sorted_merge UsedDefine_lt
    (List.filter notExport (m_usedDefines c))
    (List.filter notExport
       (List.filter notHeaderGuard (m_maybeUsedDefines c))).
Proof.
  cbv zeta. unfold pass. rewrite EndOfMainFile_usedDefines.
  destruct (run_setsSorted events initial initial_setsSorted) as [Hu Hm].
  apply sorted_merge_filter.
  - now apply strictlySorted_sorted.
  - apply filter_StronglySorted. now apply strictlySorted_sorted.
Qed.

(** ** Further properties of the included files *)

Section MoreIncludedFiles.
Context `{FE : FrontEnd}.

Lemma handle_inclusion_state (c : Collector) (event : Event) :
  m_sourceFiles (handle c event) =
    match event with
    | OnInclusionDirective (Some f) =>
        if m_skipInclude c then m_sourceFiles c
        else m_sourceFiles (addSourceFile f c)
    | _ => m_sourceFiles c
    end /\
  m_skipInclude (handle c event) =
    match event with
    | OnInclusionDirective _ => false
    | OnFileNotFound => true
    | _ => m_skipInclude c
    end.
Proof.
  destruct event as [file| |tok def|tok def|tok def|tok dir|tok def|tok def];
    simpl; unfold Ifndef, Ifdef, Defined, MacroExpands;
    try (pose proof (addMacroAsSymbol_frame tok
           (firstMacroInfo (getLocalDirective def)) SymbolType.MacroUsage
           (addUsedDefine tok def c)) as (_ & _ & -> & ->);
         pose proof (addUsedDefine_frame tok def c) as (_ & _ & -> & ->);
         now split).
  - unfold InclusionDirective. destruct file as [f|]; [|now split].
    destruct (m_skipInclude c); now split.
  - now split.
  - unfold MacroDefined.
    pose proof (addMacroAsSymbol_frame tok (firstMacroInfo dir)
      SymbolType.MacroDefinition c) as (_ & _ & -> & ->). now split.
  - unfold MacroUndefined.
    pose proof (addMacroAsSymbol_frame tok
      (firstMacroInfo (getLocalDirective def))
      SymbolType.MacroUndefinition c) as (_ & _ & -> & ->). now split.
Qed.

Lemma addSourceFile_present file c :
  In (cacheFilePathId file) (m_sourceFiles c) -> addSourceFile file c = c.
Proof.
  intros Hin. unfold addSourceFile.
  destruct (m_sourceFiles c !! find Z.eqb (m_sourceFiles c)
                                (cacheFilePathId file)) as [x|] eqn:Hfound.
  - now rewrite (find_lookup _ _ _ _ Hfound).
  - exfalso. revert Hin. apply (find_not_In Z.eqb); [|exact Hfound].
    intros x. apply Z.eqb_eq.
Qed.

Lemma addSourceFile_keeps file c id :
  In id (m_sourceFiles c) -> In id (m_sourceFiles (addSourceFile file c)).
Proof.
  intros Hin. rewrite addSourceFile_sourceFiles.
  case_bool_decide; [exact Hin|]. apply in_or_app. now left.
Qed.

Lemma addSourceFile_inv file c id :
  In id (m_sourceFiles (addSourceFile file c)) ->
  In id (m_sourceFiles c) \/ id = cacheFilePathId file.
Proof.
  rewrite addSourceFile_sourceFiles.
  case_bool_decide; [now left|].
  intros Hin. apply in_app_or in Hin as [Hin | [<- | []]]; auto.
Qed.

Lemma run_sourceFiles_keeps events c id :
  In id (m_sourceFiles c) -> In id (m_sourceFiles (run events c)).
Proof.
  revert c. induction events as [|e events IH]; intros c Hin; [exact Hin|].
  simpl. apply IH.
  destruct (handle_inclusion_state c e) as [-> _].
  destruct e as [[f|]| | | | | | |]; try exact Hin.
  destruct (m_skipInclude c); [exact Hin|]. now apply addSourceFile_keeps.
Qed.

Lemma run_sourceFiles_inv events c id :
  In id (m_sourceFiles (run events c)) ->
  In id (m_sourceFiles c) \/
  exists f, In (OnInclusionDirective (Some f)) events /\
            cacheFilePathId f = id.
Proof.
  revert c. induction events as [|e events IH]; intros c Hin; [now left|].
  simpl in Hin. apply IH in Hin as [Hin | (f & Hf & Hid)].
  - destruct (handle_inclusion_state c e) as [Hfiles _].
    rewrite Hfiles in Hin.
    destruct e as [[f|]| | | | | | |]; try (now left).
    destruct (m_skipInclude c); [now left|].
    apply addSourceFile_inv in Hin as [Hin | ->]; [now left|].
    right. exists f. split; [now left | reflexivity].
  - right. exists f. split; [now right | exact Hid].
Qed.

Lemma run_sourceFiles_complete events c f :
  m_skipInclude c = false ->
  ~ In OnFileNotFound events ->
  In (OnInclusionDirective (Some f)) events ->
  In (cacheFilePathId f) (m_sourceFiles (run events c)).
Proof.
  revert c. induction events as [|e events IH]; intros c Hskip Hnf Hin;
    [destruct Hin|].
  simpl. destruct (handle_inclusion_state c e) as [Hfiles Hflag].
  destruct Hin as [-> | Hin].
  - apply run_sourceFiles_keeps. rewrite Hfiles, Hskip.
    apply addSourceFile_In.
  - apply IH; [|intros H; apply Hnf; now right|exact Hin].
    rewrite Hflag.
    destruct e as [file| | | | | | |]; try exact Hskip; [reflexivity|].
    exfalso. apply Hnf. now left.
Qed.
End MoreIncludedFiles.

(** X8: the included files never hold an id twice, whatever the events;
    [addSourceFile] changes nothing when the file's id is already there,
    and otherwise appends the id at the end of the vector. *)
Theorem included_files_never_repeat `{FE : FrontEnd}
    (events : list Event) (file : FileEntry) (c : Collector) :
  NoDup (m_sourceFiles (run events initial)) /\
  (In (cacheFilePathId file) (m_sourceFiles c) -> addSourceFile file c = c) /\
  (~ In (cacheFilePathId file) (m_sourceFiles c) ->
   m_sourceFiles (addSourceFile file c)
   = m_sourceFiles c ++ [cacheFilePathId file]).
Proof.
  split; [apply run_sourceFiles_NoDup; constructor|].
  split; [apply addSourceFile_present|].
  intros Hnin. rewrite addSourceFile_sourceFiles.
  rewrite bool_decide_eq_false_2; [reflexivity|].
  now rewrite list_elem_of_In.
Qed.

Lemma included_files_never_repeat_witness :
  let c :=
    run (FE := sampleFrontEnd)
      [OnInclusionDirective (Some "bb.h"%string)] initial in
  addSourceFile (FE := sampleFrontEnd) "bb.h" c = c /\
  m_sourceFiles (addSourceFile (FE := sampleFrontEnd) "a.h" c) = [4; 3].
Proof.
  cbv zeta.
  destruct (@included_files_never_repeat sampleFrontEnd [] "bb.h"%string
              (run (FE := sampleFrontEnd)
                 [OnInclusionDirective (Some "bb.h"%string)] initial))
    as (_ & Hpresent & _).
  destruct (@included_files_never_repeat sampleFrontEnd [] "a.h"%string
              (run (FE := sampleFrontEnd)
                 [OnInclusionDirective (Some "bb.h"%string)] initial))
    as (_ & _ & Habsent).
  split.
  - apply Hpresent. left. reflexivity.
  - apply Habsent. intros [H | []]. discriminate H.
Defined.

(** X9: the skip flag set by [FileNotFound] waits for the next inclusion
    callback: macro callbacks in between do not clear it, so the next
    inclusion callback is dropped however many macro events precede it; and
    the flag is no counter: after two failures one inclusion callback
    clears it and the inclusion after that is recorded. *)
Theorem FileNotFound_suppression_waits_for_inclusion `{FE : FrontEnd}
    (c : Collector) (macroEvents : list Event) (file : option FileEntry)
    (next : FileEntry) :
  Forall (fun event => is_Some (eventOccurrence event)) macroEvents ->
  m_sourceFiles
    (run (OnFileNotFound :: macroEvents ++ [OnInclusionDirective file]) c)
  = m_sourceFiles c /\
  In (cacheFilePathId next)
     (m_sourceFiles
        (run [OnFileNotFound; OnFileNotFound; OnInclusionDirective file;
              OnInclusionDirective (Some next)] c)).
Proof.
  intros Hmacro. split.
  - simpl run. unfold run. rewrite fold_left_app. simpl.
    fold (run macroEvents (set_skipInclude true c)).
    assert (Hkeep : forall c',
      m_sourceFiles (run macroEvents c') = m_sourceFiles c' /\
      m_skipInclude (run macroEvents c') = m_skipInclude c').
    { induction Hmacro as [|e events He _ IH]; intros c'; [now split|].
      simpl. destruct (IH (handle c' e)) as [-> ->].
      destruct (handle_inclusion_state c' e) as [-> ->].
      destruct e as [f| | | | | | |]; simpl in He;
        try (now split); destruct He as [x Hx]; discriminate Hx. }
    destruct (Hkeep (set_skipInclude true c)) as [Hfiles Hflag].
    unfold InclusionDirective. rewrite Hflag. simpl.
    destruct file; simpl; exact Hfiles.
  - simpl. unfold InclusionDirective at 1. simpl.
    apply addSourceFile_In.
Qed.

Lemma FileNotFound_suppression_waits_for_inclusion_witness :
  m_sourceFiles
    (run (FE := sampleFrontEnd)
       (OnFileNotFound ::
        [OnMacroDefined (tokenA 266) (Some directiveA);
         OnIfdef (tokenA 286) definedA] ++
        [OnInclusionDirective (Some "a.h"%string)]) initial)
  = m_sourceFiles initial.
Proof.
  apply (@FileNotFound_suppression_waits_for_inclusion sampleFrontEnd initial
           [OnMacroDefined (tokenA 266) (Some directiveA);
            OnIfdef (tokenA 286) definedA] (Some "a.h"%string) "a.h"%string).
  repeat constructor; simpl; eauto.
Defined.

(** X10: every id among the included files is the id of a file that an
    inclusion callback reported; an id once recorded stays; and in a pass
    without a failed resolution the included files are exactly the files of
    the inclusion callbacks. *)
Theorem included_files_are_inclusion_events `{FE : FrontEnd}
    (events : list Event) (id : FilePathId) :
  (In id (m_sourceFiles (run events initial)) ->
   exists f, In (OnInclusionDirective (Some f)) events /\
             cacheFilePathId f = id) /\
  (forall later, In id (m_sourceFiles (run events initial)) ->
                 In id (m_sourceFiles (run (events ++ later) initial))) /\
  (~ In OnFileNotFound events ->
   (In id (m_sourceFiles (run events initial)) <->
    exists f, In (OnInclusionDirective (Some f)) events /\
              cacheFilePathId f = id)).
Proof.
  assert (Hinv : In id (m_sourceFiles (run events initial)) ->
                 exists f, In (OnInclusionDirective (Some f)) events /\
                           cacheFilePathId f = id).
  { intros Hin. apply run_sourceFiles_inv in Hin as [[] | Hin]. exact Hin. }
  split; [exact Hinv|]. split.
  - intros later Hin. unfold run. rewrite fold_left_app.
    now apply run_sourceFiles_keeps.
  - intros Hnf. split; [exact Hinv|].
    intros (f & Hf & <-). now apply run_sourceFiles_complete.
Qed.

Lemma included_files_are_inclusion_events_witness :
  let events :=
    [OnInclusionDirective (Some "bb.h"%string);
     OnIfdef (tokenA 286) definedA;
     OnInclusionDirective (Some "a.h"%string)] in
  In 3 (m_sourceFiles (run (FE := sampleFrontEnd) events initial)).
Proof.
  cbv zeta.
  destruct (@included_files_are_inclusion_events sampleFrontEnd
              [OnInclusionDirective (Some "bb.h"%string);
               OnIfdef (tokenA 286) definedA;
               OnInclusionDirective (Some "a.h"%string)] 3)
    as (_ & _ & Hiff).
  apply Hiff.
  - intros [H | [H | [H | []]]]; discriminate H.
  - exists "a.h"%string. split; [|reflexivity].
    right. right. left. reflexivity.
Defined.

(** ** Further properties of the symbol table and the occurrence log *)

Section MoreSymbolTable.
Context `{FE : FrontEnd}.

Lemma handle_log (c : Collector) (event : Event) :
  m_sourceLocationEntries (handle c event)
  = m_sourceLocationEntries c ++ eventOccurrences event.
Proof.
  change (m_sourceLocationEntries (handle c event))
    with (snd (tables (handle c event))).
  rewrite handle_tables. unfold eventOccurrences.
  destruct (eventOccurrence event) as [[[tok [info|]] ty]|];
    [| now rewrite app_nil_r | simpl; now rewrite app_nil_r].
  destruct (isFileID (getLocation tok)) eqn:Hfile.
  - destruct (isValid (locationFilePathId (getLocation tok))) eqn:Hvalid.
    + now rewrite addMacroAsSymbol_recorded by assumption.
    + rewrite addMacroAsSymbol_skipped; [simpl; now rewrite app_nil_r|].
      unfold recordable. rewrite Hvalid. intros (_ & _ & ?). discriminate.
  - rewrite addMacroAsSymbol_skipped; [simpl; now rewrite app_nil_r|].
    unfold recordable. rewrite Hfile. intros (_ & ? & _). discriminate.
Qed.

Lemma run_log (events : list Event) (c : Collector) :
  m_sourceLocationEntries (run events c)
  = m_sourceLocationEntries c ++ flat_map eventOccurrences events.
Proof.
  revert c. induction events as [|e events IH]; intros c.
  - simpl. now rewrite app_nil_r.
  - simpl. now rewrite IH, handle_log, <- app_assoc.
Qed.

Lemma eventOccurrences_valid (event : Event) :
  Forall (fun o => isValid (entryFilePathId o) = true)
    (eventOccurrences event).
Proof.
  unfold eventOccurrences.
  destruct (eventOccurrence event) as [[[tok [info|]] ty]|];
    try constructor.
  destruct (isFileID (getLocation tok)); [|constructor].
  destruct (isValid (locationFilePathId (getLocation tok))) eqn:Hvalid;
    repeat constructor. exact Hvalid.
Qed.

(** A new entry of the symbol table comes from the occurrence at hand. *)
Lemma handle_new_entry (c : Collector) (event : Event) id entry :
  m_symbolEntries (handle c event) !! id = Some entry ->
  m_symbolEntries c !! id = Some entry \/
  exists tok info ty,
    eventOccurrence event = Some (tok, Some info, ty) /\
    toSymbolIndex info = id /\
    symbolName entry = getName tok /\
    generateUSR (getName tok) (getLocation tok) = Some (usr entry) /\
    eventOccurrences event = [occurrenceOf tok info ty].
Proof.
  change (m_symbolEntries (handle c event)) with (fst (tables (handle c event))).
  rewrite handle_tables. unfold eventOccurrences.
  destruct (eventOccurrence event) as [[[tok [info|]] ty]|];
    [| now left | now left].
  destruct (isFileID (getLocation tok)) eqn:Hfile.
  - destruct (isValid (locationFilePathId (getLocation tok))) eqn:Hvalid.
    + rewrite addMacroAsSymbol_recorded by assumption. simpl.
      destruct (m_symbolEntries c !! toSymbolIndex info); [now left|].
      destruct (generateUSR (getName tok) (getLocation tok)) as [u|] eqn:Husr;
        [|now left].
      destruct (decide (toSymbolIndex info = id)) as [Heq | Hne].
      * rewrite Heq, lookup_insert_eq. intros [= <-].
        right. exists tok, info, ty. simpl. auto.
      * rewrite lookup_insert_ne by exact Hne. now left.
    + rewrite addMacroAsSymbol_skipped; [now left|].
      unfold recordable. rewrite Hvalid. intros (_ & _ & ?). discriminate.
  - rewrite addMacroAsSymbol_skipped; [now left|].
    unfold recordable. rewrite Hfile. intros (_ & ? & _). discriminate.
Qed.

Lemma run_new_entry (events : list Event) (c : Collector) id entry :
  m_symbolEntries (run events c) !! id = Some entry ->
  m_symbolEntries c !! id = Some entry \/
  exists event tok info ty,
    In event events /\
    eventOccurrence event = Some (tok, Some info, ty) /\
    toSymbolIndex info = id /\
    symbolName entry = getName tok /\
    generateUSR (getName tok) (getLocation tok) = Some (usr entry) /\
    eventOccurrences event = [occurrenceOf tok info ty].
Proof.
  revert c. induction events as [|e events IH]; intros c Hid; [now left|].
  simpl in Hid. apply IH in Hid as [Hid | (ev & tok & info & ty & Hin & H)].
  - apply handle_new_entry in Hid as [Hid | (tok & info & ty & H)];
      [now left|].
    right. exists e, tok, info, ty. split; [now left | exact H].
  - right. exists ev, tok, info, ty. split; [now right | exact H].
Qed.
End MoreSymbolTable.

(** X11: the occurrence log is the history of the events and of nothing
    else: after any events it is the former log followed, in order, by one
    occurrence for every event that passes the three gates; no event
    removes or rewrites an occurrence, and neither the outcome of USR
    generation nor the content of the symbol table has a part in it. *)
Theorem occurrence_log_is_event_history `{FE : FrontEnd}
    (events : list Event) (c : Collector) :
  m_sourceLocationEntries (run events c)
  = m_sourceLocationEntries c ++ flat_map eventOccurrences events /\
  m_sourceLocationEntries (pass events) = flat_map eventOccurrences events /\
  (length (m_sourceLocationEntries (run events c))
   <= length (m_sourceLocationEntries c) + length events)%nat.
Proof.
  split; [apply run_log|]. split.
  - unfold pass.
    pose proof (EndOfMainFile_frame (run events initial)) as (_ & -> & _).
    now rewrite run_log.
  - rewrite run_log, length_app. apply Nat.add_le_mono_l.
    induction events as [|e events IH]; [simpl; lia|].
    simpl. rewrite length_app.
    assert (length (eventOccurrences e) <= 1)%nat; [|lia].
    unfold eventOccurrences.
    destruct (eventOccurrence e) as [[[tok [info|]] ty]|]; simpl; try lia.
    destruct (isFileID (getLocation tok) &&
              isValid (locationFilePathId (getLocation tok))); simpl; lia.
Qed.

(** X12: every occurrence in the log of a pass has a valid file id. *)
Theorem logged_occurrences_have_valid_file `{FE : FrontEnd}
    (events : list Event) :
  Forall (fun o => isValid (entryFilePathId o) = true)
    (m_sourceLocationEntries (pass events)).
Proof.
  unfold pass.
  pose proof (EndOfMainFile_frame (run events initial)) as (_ & -> & _).
  rewrite run_log. simpl.
  induction events as [|e events IH]; [constructor|].
  simpl. apply Forall_app. split; [apply eventOccurrences_valid | exact IH].
Qed.

(** X13: every entry of the symbol table has its origin in an event of the
    pass: an occurrence of that identity that passed the gates, whose token
    gave the entry its name, for which USR generation produced the entry's
    USR, and which is in the occurrence log.  No identity is in the table
    without an occurrence in the log. *)
Theorem symbol_entries_come_from_events `{FE : FrontEnd}
    (events : list Event) (id : SymbolIndex) (entry : SymbolEntry) :
  m_symbolEntries (pass events) !! id = Some entry ->
  (exists event tok info ty,
     In event events /\
     eventOccurrence event = Some (tok, Some info, ty) /\
     toSymbolIndex info = id /\
     symbolName entry = getName tok /\
     generateUSR (getName tok) (getLocation tok) = Some (usr entry) /\
     In (occurrenceOf tok info ty) (m_sourceLocationEntries (pass events))) /\
  In id (map symbolId (m_sourceLocationEntries (pass events))).
Proof.
  unfold pass.
  pose proof (EndOfMainFile_frame (run events initial)) as (-> & -> & _).
  intros Hid.
  apply run_new_entry in Hid as [Hid | (ev & tok & info & ty & Hin & Hocc &
                                         Hidx & Hname & Husr & Hlog)].
  { simpl in Hid. rewrite lookup_empty in Hid. discriminate Hid. }
  assert (Hlogged : In (occurrenceOf tok info ty)
                      (m_sourceLocationEntries (run events initial))).
  { rewrite run_log. simpl. apply in_flat_map. exists ev.
    split; [exact Hin|]. rewrite Hlog. now left. }
  split.
  - exists ev, tok, info, ty. auto 10.
  - apply in_map_iff. exists (occurrenceOf tok info ty).
    split; [exact Hidx | exact Hlogged].
Qed.

Lemma symbol_entries_come_from_events_witness :
  let events :=
    [OnMacroDefined (tokenA 267) (Some directiveA);
     OnIfdef (tokenA 286) definedA] in
  m_symbolEntries (pass (FE := sampleFrontEnd) events) !! 1
    = Some (mkSymbolEntry "c:@macro@A" "A") /\
  In 1 (map symbolId
          (m_sourceLocationEntries (pass (FE := sampleFrontEnd) events))).
Proof.
  cbv zeta.
  assert (Hentry :
    m_symbolEntries
      (pass (FE := sampleFrontEnd)
         [OnMacroDefined (tokenA 267) (Some directiveA);
          OnIfdef (tokenA 286) definedA]) !! 1
    = Some (mkSymbolEntry "c:@macro@A" "A")) by reflexivity.
  split; [exact Hentry|].
  exact (proj2 (@symbol_entries_come_from_events sampleFrontEnd _ 1 _ Hentry)).
Defined.

(** X14: the callbacks keep to their own data.  A macro callback changes
    neither the included files nor the skip flag; an inclusion callback or
    a failed resolution changes neither the symbol table, nor the
    occurrence log, nor a used-define set; and the callbacks for a
    definition and an undefinition leave the used-define sets alone. *)
Theorem callbacks_keep_to_their_data `{FE : FrontEnd}
    (c : Collector) (event : Event) :
  (is_Some (eventOccurrence event) ->
   m_sourceFiles (handle c event) = m_sourceFiles c /\
   m_skipInclude (handle c event) = m_skipInclude c) /\
  (eventOccurrence event = None ->
   tables (handle c event) = tables c) /\
  (usedDefineEvent event = None ->
   m_usedDefines (handle c event) = m_usedDefines c /\
   m_maybeUsedDefines (handle c event) = m_maybeUsedDefines c).
Proof.
  split; [|split].
  - intros [x Hx]. destruct (handle_inclusion_state c event) as [-> ->].
    destruct event; simpl in Hx; try discriminate Hx; now split.
  - intros Hnone. now rewrite handle_tables, Hnone.
  - intros Hnone. destruct (handle_usedDefines_eq c event) as [-> ->].
    now rewrite Hnone.
Qed.

Lemma callbacks_keep_to_their_data_witness :
  let c :=
    run (FE := sampleFrontEnd)
      [OnInclusionDirective (Some "bb.h"%string); OnFileNotFound] initial in
  let event := OnMacroDefined (tokenA 266) (Some directiveA) in
  m_sourceFiles (handle (FE := sampleFrontEnd) c event) = [4] /\
  m_skipInclude (handle (FE := sampleFrontEnd) c event) = true.
Proof.
  cbv zeta.
  destruct (@callbacks_keep_to_their_data sampleFrontEnd
              (run (FE := sampleFrontEnd)
                 [OnInclusionDirective (Some "bb.h"%string); OnFileNotFound]
                 initial)
              (OnMacroDefined (tokenA 266) (Some directiveA)))
    as (Hmacro & _).
  apply Hmacro. simpl. eauto.
Defined.

(** ** The KEIL toolchain *)

Lemma guessArchitecture_cons (macro : Keil.Macro) (rest : list Keil.Macro) :
  Keil.guessArchitecture (macro :: rest) =
  if recognisedKey macro
  then (if (Keil.key macro =? "__CC_ARM")%string
        then Keil.ArmArchitecture else Keil.Mcs51Architecture)
  else Keil.guessArchitecture rest.
Proof.
  unfold recognisedKey. simpl.
  destruct (Keil.key macro =? "__CC_ARM")%string; [reflexivity|].
  simpl.
  now destruct ((Keil.key macro =? "__C51__")%string
                || (Keil.key macro =? "__CX51__")%string).
Qed.

Lemma guessArchitecture_not_other (macros : list Keil.Macro) :
  Keil.guessArchitecture macros <> Keil.OtherArchitecture.
Proof.
  induction macros as [|m macros IH]; [discriminate|].
  rewrite guessArchitecture_cons.
  destruct (recognisedKey m); [|exact IH].
  destruct (Keil.key m =? "__CC_ARM")%string; discriminate.
Qed.

(** X15: [guessArchitecture] is decided by the first macro whose key is
    [__CC_ARM], [__C51__] or [__CX51__]: the macros before it are skipped
    and those after it are not looked at; the result is ARM for
    [__CC_ARM] and MCS51 for the other two, and the unknown architecture
    exactly when no macro has one of the three keys. *)
Theorem guessArchitecture_first_recognised_key
    (before after : list Keil.Macro) (macro : Keil.Macro)
    (macros : list Keil.Macro) :
  (Forall (fun m => recognisedKey m = false) before ->
   recognisedKey macro = true ->
   Keil.guessArchitecture (before ++ macro :: after) =
   if (Keil.key macro =? "__CC_ARM")%string
   then Keil.ArmArchitecture else Keil.Mcs51Architecture) /\
  (Keil.guessArchitecture macros = Keil.UnknownArchitecture <->
   Forall (fun m => recognisedKey m = false) macros) /\
  Keil.guessArchitecture macros <> Keil.OtherArchitecture.
Proof.
  split; [|split].
  - intros Hbefore Hkey.
    induction Hbefore as [|m before Hm _ IH]; simpl app.
    + now rewrite guessArchitecture_cons, Hkey.
    + now rewrite guessArchitecture_cons, Hm.
  - induction macros as [|m macros IH].
    + split; [constructor | reflexivity].
    + rewrite guessArchitecture_cons.
      destruct (recognisedKey m) eqn:Hm.
      * split.
        -- destruct (Keil.key m =? "__CC_ARM")%string; discriminate.
        -- intros H. apply Forall_inv in H. congruence.
      * rewrite IH. split.
        -- intros H. now constructor.
        -- intros H. now apply Forall_inv_tail in H.
  - apply guessArchitecture_not_other.
Qed.

Lemma guessArchitecture_first_recognised_key_witness :
  Keil.guessArchitecture
    ([Keil.mkMacro "__sizeof_int" "4" Keil.Define] ++
     Keil.mkMacro "__C51__" "901" Keil.Define ::
     [Keil.mkMacro "__CC_ARM" "1" Keil.Define])
  = Keil.Mcs51Architecture.
Proof.
  apply (proj1 (guessArchitecture_first_recognised_key
                  [Keil.mkMacro "__sizeof_int" "4" Keil.Define]
                  [Keil.mkMacro "__CC_ARM" "1" Keil.Define]
                  (Keil.mkMacro "__C51__" "901" Keil.Define) [])).
  - repeat constructor.
  - reflexivity.
Defined.

(** X16: the ABI guessed from the macros is consistent: the OS is bare
    metal with the generic flavor; the MCS51 architecture comes with the
    OMF format and a word width of 16 whatever [__sizeof_int] says, ARM with
    ELF, the unknown architecture with the unknown format; and the word
    width is a multiple of 8 below 256 (a size of 32 bytes and more wraps
    around in the [unsigned char]). *)
Theorem guessAbi_consistent (defaultMacro : Keil.Macro)
    (isValid : Keil.Macro -> bool) (toInt : string -> Z)
    (macros : list Keil.Macro) :
  let abi := Keil.guessAbi defaultMacro isValid toInt macros in
  Keil.os abi = Keil.BareMetalOS /\
  Keil.osFlavor abi = Keil.GenericFlavor /\
  match Keil.architecture abi with
  | Keil.Mcs51Architecture =>
      Keil.binaryFormat abi = Keil.OmfFormat /\ Keil.wordWidth abi = 16
  | Keil.ArmArchitecture => Keil.binaryFormat abi = Keil.ElfFormat
  | Keil.UnknownArchitecture => Keil.binaryFormat abi = Keil.UnknownFormat
  | Keil.OtherArchitecture => False
  end /\
  0 <= Keil.wordWidth abi < 256 /\
  Keil.wordWidth abi mod 8 = 0.
Proof.
  cbv zeta. unfold Keil.guessAbi. simpl.
  split; [reflexivity|]. split; [reflexivity|]. split.
  - pose proof (guessArchitecture_not_other macros) as Hother.
    destruct (Keil.guessArchitecture macros); simpl; auto.
  - unfold Keil.guessWordWidth.
    destruct (Keil.Architecture_eqb _ _); [split; [lia | reflexivity]|].
    destruct (isValid _ && Keil.MacroType_eqb _ _);
      [|split; [lia | reflexivity]].
    split; [apply Z.mod_pos_bound; lia|].
    set (n := toInt _).
    replace (n * 8) with (8 * n) by lia.
    change 256 with (8 * 32). rewrite Zmult_mod_distr_l.
    rewrite Z.mul_comm. apply Z_mod_mult.
Qed.



(** ** The names a pass hands over *)

(** X18: a name is among the final used defines exactly when it does not
    contain [EXPORT] and a conditional-test or expansion event of the pass
    names it, either with macro info at hand or, without it, while the
    preprocessor does not know the name as a header guard at the end of the
    file. *)
Theorem final_used_define_names `{FE : FrontEnd}
    (events : list Event) (n : string) :
  In n (map defineName (m_usedDefines (pass events))) <->
  ~ hasSubstring n "EXPORT" /\
  exists event tok def,
    In event events /\ usedDefineEvent event = Some (tok, def) /\
    getName tok = n /\
    (is_Some (getMacroInfo def) \/ ~ isHeaderGuard n).
Proof.
  unfold pass. rewrite EndOfMainFile_usedDefines.
  assert (Hu : In n (map defineName (m_usedDefines (run events initial))) <->
               exists event tok def,
                 In event events /\ usedDefineEvent event = Some (tok, def) /\
                 is_Some (getMacroInfo def) /\ getName tok = n).
  { rewrite (proj1 (run_usedDefine_names events initial n)). simpl. tauto. }
  assert (Hm : In n (map defineName
                       (m_maybeUsedDefines (run events initial))) <->
               exists event tok def,
                 In event events /\ usedDefineEvent event = Some (tok, def) /\
                 getMacroInfo def = None /\ getName tok = n).
  { rewrite (proj2 (run_usedDefine_names events initial n)). simpl. tauto. }
  split.
  - intros Hin. apply in_map_iff in Hin as (u & <- & Hu').
    apply filter_In in Hu' as [Hu' Hexp].
    split; [now apply notExport_iff|].
    apply sorted_merge_In in Hu' as [Hu' | Hu'].
    + apply (in_map defineName) in Hu'. apply Hu in Hu'.
      destruct Hu' as (ev & tok & def & Hin & Hev & Hi & Hn).
      exists ev, tok, def. auto.
    + apply filter_In in Hu' as [Hu' Hg].
      apply (in_map defineName) in Hu'. apply Hm in Hu'.
      destruct Hu' as (ev & tok & def & Hin & Hev & Hi & Hn).
      exists ev, tok, def. apply notHeaderGuard_iff in Hg. auto.
  - intros (Hexp & ev & tok & def & Hin & Hev & Hn & Hor).
    destruct (getMacroInfo def) as [info|] eqn:Hinfo.
    + assert (Hname : In n (map defineName (m_usedDefines (run events initial)))).
      { apply Hu. exists ev, tok, def. rewrite Hinfo. eauto. }
      apply in_map_iff in Hname as (u & <- & Hu').
      apply in_map, filter_In. split; [|now apply notExport_iff].
      apply sorted_merge_In. now left.
    + destruct Hor as [[x Hx] | Hg]; [discriminate Hx|].
      assert (Hname : In n (map defineName
                              (m_maybeUsedDefines (run events initial)))).
      { apply Hm. exists ev, tok, def. auto. }
      apply in_map_iff in Hname as (u & <- & Hu').
      apply in_map, filter_In. split; [|now apply notExport_iff].
      apply sorted_merge_In. right. apply filter_In.
      split; [exact Hu' | now apply notHeaderGuard_iff].
Qed.
